(** * GlitchProcessor: a shallow embedding of [client/src/lib/glitchProcessor.ts]

    The five pixel effects, the constructor's size computation and the
    dispatcher [process] are transcribed from the TypeScript source, and
    the preset table with [applyPreset] from [client/src/pages/Home.tsx].

    Numbers.  A JavaScript [number] is modelled by exact arithmetic:
    - integers (loop counters, coordinates, byte indices, bytes) are [Z];
    - quantities built with [+ - * /] only are rationals [Q] (executable);
    - quantities that go through [Math.sin], [Math.cos] or [Math.PI] are
      real numbers [R]; they reach the pixel buffer only through
      [Math.floor] / [Math.round], i.e. as integers.
    IEEE-754 rounding of intermediate results is not modelled.  [undefined]
    and [NaN] are modelled by [None].

    Buffers.  A [Uint8ClampedArray] / [Uint8Array] is a [list Z]; a read
    outside the array yields [undefined]; a write outside the array is
    ignored; a stored number is converted with ToUint8Clamp. *)

From Stdlib Require Import ZArith QArith Qround Qreals Reals Lra Lia.
From stdpp Require Import base list strings.

Open Scope Z_scope.

(** ** JavaScript primitives *)

Module JS.

(** [Math.round x] is [floor (x + 0.5)]. *)
Definition round_Q (q : Q) : Z := Qfloor (q + (1 # 2)).
Definition round_R (r : R) : Z := Zfloor (r + / 2).

(** [a % b] on integer-valued operands: the sign follows the dividend. *)
Definition rem (a b : Z) : Z := Z.rem a b.

(** [a % b] on real operands (fmod): [a - b * trunc (a / b)]. *)
Definition trunc_R (r : R) : Z :=
  if Rle_dec 0 r then Zfloor r else - Zfloor (- r).
Definition fmod (a b : R) : R := (a - b * IZR (trunc_R (a / b)))%R.

(** ToUint8Clamp: clamp to [0,255] and round to nearest, ties to even;
    [NaN] becomes 0. *)
Definition roundTiesToEven (q : Q) : Z :=
  let f := Qfloor q in
  match (q - inject_Z f ?= 1 # 2)%Q with
  | Lt => f
  | Gt => f + 1
  | Eq => if Z.even f then f else f + 1
  end.
Definition toUint8Clamp (q : Q) : Z := Z.max 0 (Z.min 255 (roundTiesToEven q)).
Definition toUint8ClampOpt (v : option Q) : Z := from_option toUint8Clamp 0 v.

(** Typed-array element read: [undefined] outside the array. *)
Definition load (a : list Z) (i : Z) : option Z :=
  if i <? 0 then None else a !! Z.to_nat i.

(** Raw element write of an already converted byte. *)
Definition store (a : list Z) (i v : Z) : list Z :=
  if i <? 0 then a else <[Z.to_nat i := v]> a.

(** [a[i] = v] on a [Uint8ClampedArray]. *)
Definition store8 (a : list Z) (i : Z) (v : option Q) : list Z :=
  store a i (toUint8ClampOpt v).

(** The value of a byte read, as a number. *)
Definition num (v : option Z) : option Q := inject_Z <$> v.

(** [for (k = lo; k < hi; k++)] visits [zrange lo hi] in order. *)
Definition zrange (lo hi : Z) : list Z :=
  (λ k, lo + Z.of_nat k) <$> seq 0 (Z.to_nat (hi - lo)).

(** [for (y = y0; y < y1; y++) for (x = x0; x < x1; x++) body]. *)
Definition for_yx {A} (y0 y1 x0 x1 : Z) (body : Z → Z → A → A) (s : A) : A :=
  foldl (λ s y, foldl (λ s x, body y x s) s (zrange x0 x1)) s (zrange y0 y1).

(** A sequence of raw writes, first to last. *)
Definition writes (ws : list (Z * Z)) (a : list Z) : list Z :=
  foldl (λ a w, store a w.1 w.2) a ws.

End JS.

Import JS.

(** ** Data model *)

(** The four scalar fields are whole numbers (the sliders step by whole
    numbers), so [Math.floor(params.iterations)] is [params.iterations]. *)
Inductive EffectType := chromatic | fractal | cellular | wave | noise.

Record EffectParams := mkParams {
  effectType : EffectType;
  intensity : Z;
  scale : Z;
  iterations : Z;
  seed : Z
}.

(** A buffer of [W] by [H] RGBA pixels, each channel a byte. *)
Definition is_byte (v : Z) : bool := (0 <=? v) && (v <=? 255).
Definition well_formed (W H : Z) (data : list Z) : Prop :=
  1 ≤ W ∧ 1 ≤ H ∧ Z.of_nat (length data) = W * H * 4 ∧
  forallb is_byte data = true.

Definition in_range (p : EffectParams) : Prop :=
  0 ≤ intensity p ≤ 100 ∧ 10 ≤ scale p ≤ 200 ∧ 1 ≤ iterations p ≤ 64.

(** ** Chromatic Displacement ([applyChromaticAberration]) *)

Module Chromatic.

(** [Math.floor(params.intensity * 0.2)] *)
Definition offsetAmount (p : EffectParams) : Z :=
  Qfloor (inject_Z (intensity p) * (2 # 10)).

(** [Math.floor((offsetAmount * (i + 1)) / iterations)] *)
Definition offset (p : EffectParams) (i : Z) : Z :=
  Qfloor (inject_Z (offsetAmount p * (i + 1)) / inject_Z (iterations p)).

(** [(i / iterations) * Math.PI * 2] *)
Definition angle (p : EffectParams) (i : Z) : R :=
  (IZR i / IZR (iterations p) * PI * 2)%R.

Definition dx (p : EffectParams) (i : Z) : Z :=
  round_R (cos (angle p i) * IZR (offset p i)).
Definition dy (p : EffectParams) (i : Z) : Z :=
  round_R (sin (angle p i) * IZR (offset p i)).

Definition srcX (W x dx : Z) : Z := rem (x + dx + W) W.
Definition srcY (H y dy : Z) : Z := rem (y + dy + H) H.

(** [Math.round((newData[k] + data[s]) / 2)] *)
Definition blend (a b : option Z) : option Q :=
  match a, b with
  | Some a, Some b => Some (inject_Z (round_Q ((inject_Z a + inject_Z b) / 2)))
  | _, _ => None
  end.

(** Body of the two pixel loops for iteration [i]. *)
Definition pixel (W H : Z) (data : list Z) (dx dy i : Z)
    (y x : Z) (newData : list Z) : list Z :=
  let idx := (y * W + x) * 4 in
  let srcIdx := (srcY H y dy * W + srcX W x dx) * 4 in
  let channel := rem i 3 in
  if channel =? 0 then
    store8 newData idx (blend (load newData idx) (load data srcIdx))
  else if channel =? 1 then
    store8 newData (idx + 1)
      (blend (load newData (idx + 1)) (load data (srcIdx + 1)))
  else
    store8 newData (idx + 2)
      (blend (load newData (idx + 2)) (load data (srcIdx + 2))).

Definition sweep (W H : Z) (data : list Z) (dx dy i : Z)
    (newData : list Z) : list Z :=
  for_yx 0 H 0 W (pixel W H data dx dy i) newData.

(** One turn of the outer loop. *)
Definition pass (W H : Z) (data : list Z) (p : EffectParams)
    (newData : list Z) (i : Z) : list Z :=
  sweep W H data (dx p i) (dy p i) i newData.

Definition applyChromaticAberration (W H : Z) (data : list Z)
    (p : EffectParams) : list Z :=
  foldl (pass W H data p) data (zrange 0 (iterations p)).

End Chromatic.

(** ** Fractal Displacement ([applyFractalDisplacement]) *)

Module Fractal.

(** The escape-time loop over the remaining indices [ks]; [mv] is the
    current [mandelbrotValue]. *)
Fixpoint escape (px py : Q) (ks : list Z) (zx zy : Q) (mv : Z) : Z :=
  match ks with
  | [] => mv
  | i :: ks' =>
      let zx2 := (zx * zx)%Q in
      let zy2 := (zy * zy)%Q in
      if Qlt_le_dec 4 (zx2 + zy2) then i
      else escape px py ks' (zx2 - zy2 + px)%Q (2 * zx * zy + py)%Q i
  end.

Definition mandelbrotValue (W H : Z) (p : EffectParams) (y x : Z) : Z :=
  let centerX := (inject_Z W / 2)%Q in
  let centerY := (inject_Z H / 2)%Q in
  let scale := (inject_Z (scale p) * (1 # 100))%Q in
  let px := ((inject_Z x - centerX) * scale)%Q in
  let py := ((inject_Z y - centerY) * scale)%Q in
  escape px py (zrange 0 (iterations p)) 0 0 0.

(** [Math.floor((mandelbrotValue / iterations) * params.intensity)] *)
Definition displacement (W H : Z) (p : EffectParams) (y x : Z) : Z :=
  Qfloor (inject_Z (mandelbrotValue W H p y x) / inject_Z (iterations p)
          * inject_Z (intensity p)).

Definition srcX (W H : Z) (p : EffectParams) (y x : Z) : Z :=
  rem (x + displacement W H p y x) W.
Definition srcY (W H : Z) (p : EffectParams) (y x : Z) : Z :=
  rem (y + displacement W H p y x) H.
Definition srcIdx (W H : Z) (p : EffectParams) (y x : Z) : Z :=
  (srcY W H p y x * W + srcX W H p y x) * 4.

Definition pixel (W H : Z) (data : list Z) (p : EffectParams)
    (y x : Z) (newData : list Z) : list Z :=
  let srcIdx := srcIdx W H p y x in
  let dstIdx := (y * W + x) * 4 in
  let n0 := store8 newData dstIdx (num (load data srcIdx)) in
  let n1 := store8 n0 (dstIdx + 1) (num (load data (srcIdx + 1))) in
  let n2 := store8 n1 (dstIdx + 2) (num (load data (srcIdx + 2))) in
  store8 n2 (dstIdx + 3) (num (load data (srcIdx + 3))).

Definition applyFractalDisplacement (W H : Z) (data : list Z)
    (p : EffectParams) : list Z :=
  for_yx 0 H 0 W (pixel W H data p) data.

End Fractal.

(** ** Cellular Evolution ([applyCellularAutomata]) *)

Module Cellular.

(** [(r * 0.299 + g * 0.587 + b * 0.114) / 255 > 0.5 ? 1 : 0] *)
Definition gray (r g b : Z) : Q :=
  ((inject_Z r * (299 # 1000) + inject_Z g * (587 # 1000)
    + inject_Z b * (114 # 1000)) / 255)%Q.

Definition cell (data : list Z) (i : Z) : Z :=
  match load data i, load data (i + 1), load data (i + 2) with
  | Some r, Some g, Some b =>
      if Qlt_le_dec (1 # 2) (gray r g b) then 1 else 0
  | _, _, _ => 0
  end.

(** [new Uint8Array(width * height)] filled by
    [for (i = 0; i < data.length; i += 4) grid[Math.floor(i / 4)] = ...];
    the loop variable is [i = 4 * k]. *)
Definition initGrid (W H : Z) (data : list Z) : list Z :=
  foldl (λ grid k, store grid k (cell data (4 * k)))
    (replicate (Z.to_nat (W * H)) 0)
    (zrange 0 ((Z.of_nat (length data) + 3) `div` 4)).

(** The eight-neighbour sum; [None] stands for [NaN]. *)
Definition neighbors (W : Z) (grid : list Z) (y x : Z) : option Z :=
  for_yx (-1) 2 (-1) 2
    (λ dy dx n,
       if (dx =? 0) && (dy =? 0) then n
       else match n, load grid ((y + dy) * W + (x + dx)) with
            | Some n, Some v => Some (n + v)
            | _, _ => None
            end)
    (Some 0).

(** Conway's rule on the value read from [grid]. *)
Definition rule (W : Z) (grid : list Z) (y x : Z) : Z :=
  let idx := y * W + x in
  let nb := neighbors W grid y x in
  if decide (load grid idx = Some 1) then
    if decide (nb = Some 2 ∨ nb = Some 3) then 1 else 0
  else
    if decide (nb = Some 3) then 1 else 0.

(** One generation: [newGrid] starts as a copy of [grid], the interior
    cells are rewritten, and [grid.set(newGrid)] makes it current. *)
Definition generation (W H : Z) (grid : list Z) : list Z :=
  let newGrid := grid in
  for_yx 1 (H - 1) 1 (W - 1)
    (λ y x newGrid, store newGrid (y * W + x) (rule W grid y x))
    newGrid.

Definition evolve (W H : Z) (n : Z) (grid : list Z) : list Z :=
  foldl (λ grid _, generation W H grid) grid (zrange 0 n).

(** [Math.round(data[k] * (1 - (cellValue * params.intensity) / 100))] *)
Definition shade (p : EffectParams) (cellValue v : option Z) : option Q :=
  match cellValue, v with
  | Some c, Some v =>
      Some (inject_Z (round_Q
        (inject_Z v * (1 - inject_Z c * inject_Z (intensity p) / 100))))
  | _, _ => None
  end.

Definition recolor (p : EffectParams) (data grid : list Z) : list Z :=
  foldl (λ newData i,
           let idx := i * 4 in
           let cellValue := load grid i in
           let n0 := store8 newData idx (shade p cellValue (load data idx)) in
           let n1 := store8 n0 (idx + 1)
                       (shade p cellValue (load data (idx + 1))) in
           store8 n1 (idx + 2) (shade p cellValue (load data (idx + 2))))
    data (zrange 0 (Z.of_nat (length grid))).

Definition applyCellularAutomata (W H : Z) (data : list Z)
    (p : EffectParams) : list Z :=
  recolor p data (evolve W H (iterations p) (initGrid W H data)).

End Cellular.

(** ** Wave Distortion ([applyWaveDistortion]) *)

Module Wave.

(** [params.scale * 0.1] and [params.intensity * 0.1] *)
Definition waveFrequency (p : EffectParams) : R := (IZR (scale p) * (1 / 10))%R.
Definition waveAmplitude (p : EffectParams) : R := (IZR (intensity p) * (1 / 10))%R.

(** One harmonic: the pair is [(displaceX, displaceY)]. *)
Definition harmonic (W H : Z) (p : EffectParams) (y x : Z)
    (d : R * R) (i : Z) : R * R :=
  let freq := (waveFrequency p * (IZR i + 1))%R in
  let amp := (waveAmplitude p / (IZR i + 1))%R in
  ((d.1 + sin (IZR y * freq / IZR H) * amp)%R,
   (d.2 + cos (IZR x * freq / IZR W) * amp)%R).

Definition displace (W H : Z) (p : EffectParams) (y x : Z) : R * R :=
  foldl (harmonic W H p y x) (0%R, 0%R) (zrange 0 (iterations p)).

(** [Math.floor((x + displaceX + width) % width)] *)
Definition srcX (W H : Z) (p : EffectParams) (y x : Z) : Z :=
  Zfloor (fmod (IZR x + (displace W H p y x).1 + IZR W) (IZR W)).
Definition srcY (W H : Z) (p : EffectParams) (y x : Z) : Z :=
  Zfloor (fmod (IZR y + (displace W H p y x).2 + IZR H) (IZR H)).
Definition srcIdx (W H : Z) (p : EffectParams) (y x : Z) : Z :=
  (srcY W H p y x * W + srcX W H p y x) * 4.

Definition pixel (W H : Z) (data : list Z) (p : EffectParams)
    (y x : Z) (newData : list Z) : list Z :=
  let srcIdx := srcIdx W H p y x in
  let dstIdx := (y * W + x) * 4 in
  let n0 := store8 newData dstIdx (num (load data srcIdx)) in
  let n1 := store8 n0 (dstIdx + 1) (num (load data (srcIdx + 1))) in
  let n2 := store8 n1 (dstIdx + 2) (num (load data (srcIdx + 2))) in
  store8 n2 (dstIdx + 3) (num (load data (srcIdx + 3))).

Definition applyWaveDistortion (W H : Z) (data : list Z)
    (p : EffectParams) : list Z :=
  for_yx 0 H 0 W (pixel W H data p) data.

End Wave.

(** ** Layered-Noise Displacement ([applyPerlinNoiseGlitch]) *)

Module Noise.

(** The four variables of the octave loop. *)
Record Octave := mkOctave {
  noiseValue : R;
  amplitude : R;
  frequency : R;
  maxValue : R
}.

(** [params.scale * 0.01] *)
Definition noiseScale (p : EffectParams) : R := (IZR (scale p) * (1 / 100))%R.

Definition octave (W H : Z) (p : EffectParams) (y x : Z)
    (o : Octave) (i : Z) : Octave :=
  let sampleX := (IZR x * frequency o * noiseScale p / IZR W)%R in
  let sampleY := (IZR y * frequency o * noiseScale p / IZR H)%R in
  {| noiseValue :=
       (noiseValue o
        + amplitude o * sin (sampleX * PI) * cos (sampleY * PI))%R;
     maxValue := (maxValue o + amplitude o)%R;
     amplitude := (amplitude o * (1 / 2))%R;
     frequency := (frequency o * 2)%R |}.

Definition octaves (W H : Z) (p : EffectParams) (y x : Z) : Octave :=
  foldl (octave W H p y x) (mkOctave 0 1 1 0) (zrange 0 (iterations p)).

(** [noiseValue = (noiseValue / maxValue + 1) / 2] *)
Definition normalized (W H : Z) (p : EffectParams) (y x : Z) : R :=
  let o := octaves W H p y x in
  ((noiseValue o / maxValue o + 1) / 2)%R.

Definition displacement (W H : Z) (p : EffectParams) (y x : Z) : Z :=
  Zfloor (normalized W H p y x * IZR (intensity p)).
Definition colorShift (W H : Z) (p : EffectParams) (y x : Z) : Z :=
  Zfloor (normalized W H p y x * 255).

Definition srcX (W H : Z) (p : EffectParams) (y x : Z) : Z :=
  rem (x + displacement W H p y x) W.
Definition srcY (W H : Z) (p : EffectParams) (y x : Z) : Z :=
  rem (y + displacement W H p y x) H.
Definition srcIdx (W H : Z) (p : EffectParams) (y x : Z) : Z :=
  (srcY W H p y x * W + srcX W H p y x) * 4.

(** [Math.min(255, q)] *)
Definition min255 (q : Q) : Q := if Qlt_le_dec q 255 then q else 255%Q.

(** [colorShift * (params.intensity / 100)] *)
Definition tint (p : EffectParams) (colorShift : Z) : Q :=
  (inject_Z colorShift * (inject_Z (intensity p) / 100))%Q.

Definition red (p : EffectParams) (cs : Z) (v : option Z) : option Q :=
  (λ v, min255 (inject_Z v + tint p cs)%Q) <$> v.
Definition green (p : EffectParams) (cs : Z) (v : option Z) : option Q :=
  (λ v, min255 (inject_Z v + tint p cs / 2)%Q) <$> v.
Definition blue (p : EffectParams) (cs : Z) (v : option Z) : option Q :=
  (λ v, min255 (inject_Z v - tint p cs / 2)%Q) <$> v.

Definition pixel (W H : Z) (data : list Z) (p : EffectParams)
    (y x : Z) (newData : list Z) : list Z :=
  let srcIdx := srcIdx W H p y x in
  let dstIdx := (y * W + x) * 4 in
  let colorShift := colorShift W H p y x in
  let n0 := store8 newData dstIdx (red p colorShift (load data srcIdx)) in
  let n1 := store8 n0 (dstIdx + 1)
              (green p colorShift (load data (srcIdx + 1))) in
  let n2 := store8 n1 (dstIdx + 2)
              (blue p colorShift (load data (srcIdx + 2))) in
  store8 n2 (dstIdx + 3) (num (load data (srcIdx + 3))).

Definition applyPerlinNoiseGlitch (W H : Z) (data : list Z)
    (p : EffectParams) : list Z :=
  for_yx 0 H 0 W (pixel W H data p) data.

End Noise.

(** ** The dispatcher ([process]) *)

(** [workingData] is the canvas content [data]; the result is what
    [putImageData] writes back. *)
Definition process (W H : Z) (data : list Z) (p : EffectParams) : list Z :=
  match effectType p with
  | chromatic => Chromatic.applyChromaticAberration W H data p
  | fractal => Fractal.applyFractalDisplacement W H data p
  | cellular => Cellular.applyCellularAutomata W H data p
  | wave => Wave.applyWaveDistortion W H data p
  | noise => Noise.applyPerlinNoiseGlitch W H data p
  end.

(** The clamping the specification describes; [process] does not call it. *)
Definition clamp (lo hi v : Z) : Z := Z.max lo (Z.min hi v).
Definition spec_clampParams (p : EffectParams) : EffectParams :=
  {| effectType := effectType p;
     intensity := clamp 0 100 (intensity p);
     scale := clamp 10 200 (scale p);
     iterations := clamp 1 64 (iterations p);
     seed := seed p |}.

(** ** The constructor *)

Module Loader.

Definition maxWidth : Z := 800.
Definition maxHeight : Z := 600.

(** Lines 21-35: the size of the working buffer for a [w] by [h] source.
    When [h = 0] the quotient [aspectRatio] is [Infinity] and
    [width / aspectRatio] is 0. *)
Definition targetSize (w h : Z) : Z * Z :=
  if (w >? maxWidth) || (h >? maxHeight) then
    let aspectRatio := (inject_Z w / inject_Z h)%Q in
    if w >? h then
      let width := maxWidth in
      (width,
       if h =? 0 then 0 else round_Q (inject_Z width / aspectRatio))
    else
      let height := maxHeight in
      (round_Q (inject_Z height * aspectRatio), height)
  else (w, h).

(** What a call of the constructor can end with: a thrown exception or
    the fields [width], [height], [imageData.data].  [InvalidImage] is
    the error the specification names; the source has no such error. *)
Inductive Exception := IndexSizeError | InvalidImage.
Inductive Outcome :=
| Thrown (e : Exception)
| Built (width height : Z) (imageData : list Z).

(** The canvas is the browser's.  [drawImage] paints and throws nothing
    for an image without area; [getImageData 0 0 sw sh] either throws or
    returns [sw * sh * 4] bytes. *)
Definition Canvas := Z → Z → Exception + list Z.

Definition constructor (getImageData : Canvas) (w h : Z) : Outcome :=
  let '(width, height) := targetSize w h in
  match getImageData width height with
  | inl e => Thrown e
  | inr d => Built width height d
  end.

(** The HTML canvas: [getImageData] throws [IndexSizeError] when [sw] or
    [sh] is zero, and otherwise returns the pixels painted by
    [drawImage]. *)
Definition htmlCanvas (pixels : Z → Z → list Z) : Canvas :=
  λ sw sh, if (sw =? 0) || (sh =? 0) then inl IndexSizeError
           else inr (pixels sw sh).

End Loader.

(** ** Auxiliary notions used in the statements *)

(** The cells on the four edges of the grid. *)
Definition border (W H y x : Z) : Prop :=
  x = 0 ∨ y = 0 ∨ x = W - 1 ∨ y = H - 1.

(** The three writes of the recolouring loop for cell [i]. *)
Definition recolor_writes (p : EffectParams) (data grid : list Z) (i : Z)
  : list (Z * Z) :=
  (λ c, (i * 4 + c,
         toUint8ClampOpt (Cellular.shade p (load grid i) (load data (i * 4 + c)))))
  <$> [0; 1; 2].

(** The offset magnitude as the specification words it:
    [floor(intensity * 0.2 * (i + 1) / n)]. *)
Definition spec_offset (p : EffectParams) (i : Z) : Z :=
  Qfloor (inject_Z (intensity p) * (2 # 10) * inject_Z (i + 1)
          / inject_Z (iterations p)).

(** Sample inputs: a one-row image whose red channel is the column number,
    a uniform image, and a painter that leaves the canvas black. *)
Definition gradient (W : Z) : list Z :=
  zrange 0 W ≫= (λ k, [k; 0; 0; 255]).
Definition uniform (n : Z) (px : list Z) : list Z :=
  zrange 0 n ≫= (λ _, px).
Definition blank (sw sh : Z) : list Z :=
  replicate (Z.to_nat (sw * sh * 4)) 0.

(** The four writes of a pixel-copy loop body for pixel [(x, y)]. *)
Definition pixel_writes (W y x : Z) (val : Z → Z) : list (Z * Z) :=
  (λ c, ((y * W + x) * 4 + c, val c)) <$> [0; 1; 2; 3].

(** The byte the noise effect stores in channel [c] of pixel [(x, y)]. *)
Definition Noise_byte (W H : Z) (data : list Z) (p : EffectParams)
    (y x c : Z) : Z :=
  let s := Noise.srcIdx W H p y x in
  let cs := Noise.colorShift W H p y x in
  toUint8ClampOpt
    (if c =? 0 then Noise.red p cs (load data (s + c))
     else if c =? 1 then Noise.green p cs (load data (s + c))
     else if c =? 2 then Noise.blue p cs (load data (s + c))
     else num (load data (s + c))).

(** The invariant of the octave loop. *)
Definition octave_ok (o : Noise.Octave) : Prop :=
  (0 < Noise.amplitude o)%R ∧ (0 <= Noise.maxValue o)%R ∧
  (- Noise.maxValue o <= Noise.noiseValue o <= Noise.maxValue o)%R.

(** Every element is a byte. *)
Definition bytes_ok (a : list Z) : Prop :=
  ∀ i v, load a i = Some v → 0 ≤ v ≤ 255.

(** Every cell is 0 or 1. *)
Definition binary (grid : list Z) : Prop :=
  ∀ k v, load grid k = Some v → v = 0 ∨ v = 1.

(** No cell is alive. *)
Definition all_dead (grid : list Z) : Prop :=
  ∀ k v, load grid k = Some v → v = 0.

(** No pixel of a [W] by [H] image has luminance above 0.5. *)
Definition dark (W H : Z) (data : list Z) : Prop :=
  forallb (λ k, Cellular.cell data (4 * k) =? 0) (zrange 0 (W * H)) = true.

(** The harmonic number [1 + 1/2 + ... + 1/n], which bounds the sum of the
    amplitudes [amp / (i + 1)] of [n] harmonics. *)
Fixpoint harmonic_number (n : nat) : Q :=
  match n with
  | O => 0
  | S k => harmonic_number k + 1 / inject_Z (Z.of_nat (S k))
  end.

(** ** The preset table ([client/src/pages/Home.tsx]) *)

Module Home.

Definition DEFAULT_PARAMS : EffectParams := mkParams chromatic 50 50 8 42.

(** [PRESETS], in the order of its keys. *)
Definition PRESETS : list (string * EffectParams) :=
  [("Chromatic Rift"%string, mkParams chromatic 85 60 16 42);
   ("Mandelbrot Decay"%string, mkParams fractal 75 120 32 123);
   ("Cellular Bloom"%string, mkParams cellular 90 50 12 456);
   ("Harmonic Distortion"%string, mkParams wave 80 40 20 789);
   ("Perlin Corruption"%string, mkParams noise 70 100 8 999)].

(** [PRESETS[presetName]]: [None] is [undefined]. *)
Definition preset (presetName : string) : option EffectParams :=
  snd <$> find (λ kv, bool_decide (kv.1 = presetName)) PRESETS.

(** [applyPreset]: the state [params] after the call. *)
Definition applyPreset (presetName : string) (params : EffectParams)
  : EffectParams :=
  match preset presetName with
  | Some p => p
  | None => params
  end.

End Home.

(** A loop body that rewrites position [pos k] from what it holds. *)
Definition self_update {K : Type} (pos : K → Z) (F : K → option Z → Z)
    (s : list Z) (k : K) : list Z :=
  store s (pos k) (F k (load s (pos k))).

(** The pixels the two loops visit, in order. *)
Definition pixels (W H : Z) : list (Z * Z) :=
  y ← zrange 0 H; x ← zrange 0 W; [(y, x)].

(** Iteration [i] of Chromatic Displacement as such a loop body. *)
Definition Chromatic_pos (W i : Z) (yx : Z * Z) : Z :=
  (yx.1 * W + yx.2) * 4 + i `mod` 3.
Definition Chromatic_value (W H : Z) (data : list Z) (dx dy i : Z)
    (yx : Z * Z) (v : option Z) : Z :=
  toUint8ClampOpt
    (Chromatic.blend v
       (load data ((Chromatic.srcY H yx.1 dy * W + Chromatic.srcX W yx.2 dx) * 4
                   + i `mod` 3))).

(** * Verification *)

(** * Typed-array reads and writes *)

Section Arrays.
Implicit Types (a : list Z) (i j v : Z).

Lemma length_store a i v : length (store a i v) = length a.
Proof. unfold store. destruct (i <? 0); [done | apply length_insert]. Qed.

Lemma load_store_ne a i j v : i ≠ j → load (store a i v) j = load a j.
Proof.
  intros Hij. unfold load, store.
  destruct (Z.ltb_spec j 0); [done |].
  destruct (Z.ltb_spec i 0); [done |].
  apply list_lookup_insert_ne. lia.
Qed.

Lemma load_store_eq a i v :
  0 ≤ i < Z.of_nat (length a) → load (store a i v) i = Some v.
Proof.
  intros Hi. unfold load, store.
  destruct (Z.ltb_spec i 0); [lia |].
  apply list_lookup_insert_eq. lia.
Qed.

Lemma load_Some_range a i v : load a i = Some v → 0 ≤ i < Z.of_nat (length a).
Proof.
  unfold load. destruct (Z.ltb_spec i 0); [done |].
  intros Hl. apply lookup_lt_Some in Hl. lia.
Qed.

Lemma load_is_Some a i : 0 ≤ i < Z.of_nat (length a) → is_Some (load a i).
Proof.
  intros Hi. unfold load. destruct (Z.ltb_spec i 0); [lia |].
  apply lookup_lt_is_Some. lia.
Qed.

Lemma load_None_neg a i : i < 0 → load a i = None.
Proof. intros Hi. unfold load. destruct (Z.ltb_spec i 0); [done | lia]. Qed.

Lemma store_load_id a i v : load a i = Some v → store a i v = a.
Proof.
  unfold load, store. destruct (Z.ltb_spec i 0); [done |].
  apply list_insert_id.
Qed.

Lemma load_ext a b :
  length a = length b → (∀ i, load a i = load b i) → a = b.
Proof.
  intros Hlen Hl. apply list_eq. intros k.
  specialize (Hl (Z.of_nat k)). unfold load in Hl.
  destruct (Z.ltb_spec (Z.of_nat k) 0); [lia |].
  by rewrite Nat2Z.id in Hl.
Qed.
End Arrays.

(** * Loops *)

Lemma elem_of_zrange lo hi k : k ∈ zrange lo hi ↔ lo ≤ k < hi.
Proof.
  unfold zrange. rewrite list_elem_of_fmap. split.
  - intros (n & -> & Hn). apply elem_of_seq in Hn. lia.
  - intros Hk. exists (Z.to_nat (k - lo)). split; [lia |].
    apply elem_of_seq. lia.
Qed.

Lemma zrange_nil lo hi : hi ≤ lo → zrange lo hi = [].
Proof. intros Hle. unfold zrange. by replace (Z.to_nat (hi - lo)) with 0%nat by lia. Qed.

Lemma zrange_snoc lo hi : lo ≤ hi → zrange lo (hi + 1) = zrange lo hi ++ [hi].
Proof.
  intros Hle. unfold zrange.
  replace (Z.to_nat (hi + 1 - lo)) with (S (Z.to_nat (hi - lo))) by lia.
  rewrite seq_S, fmap_app. simpl. do 3 f_equal. lia.
Qed.

Lemma foldl_invariant {A B} (P : A → Prop) (f : A → B → A) (l : list B) (s : A) :
  P s → (∀ s b, b ∈ l → P s → P (f s b)) → P (foldl f s l).
Proof.
  revert s. induction l as [| b l IH]; intros s Hs Hf; [done |].
  simpl. apply IH.
  - apply Hf; [left | done].
  - intros s' b' Hb'. apply Hf. by right.
Qed.

Lemma foldl_ext {A B} (f g : A → B → A) (l : list B) (s : A) :
  (∀ s b, b ∈ l → f s b = g s b) → foldl f s l = foldl g s l.
Proof.
  revert s. induction l as [| b l IH]; intros s Hfg; [done |].
  simpl. rewrite Hfg by left. apply IH.
  intros s' b' Hb'. apply Hfg. by right.
Qed.

Lemma for_yx_invariant {A} (P : A → Prop) y0 y1 x0 x1 (body : Z → Z → A → A) s :
  P s →
  (∀ y x s, y0 ≤ y < y1 → x0 ≤ x < x1 → P s → P (body y x s)) →
  P (for_yx y0 y1 x0 x1 body s).
Proof.
  intros Hs Hbody. unfold for_yx.
  apply foldl_invariant; [done |]. intros s1 y Hy Hs1.
  apply foldl_invariant; [done |]. intros s2 x Hx Hs2.
  apply Hbody; [by apply elem_of_zrange.. | done].
Qed.

Lemma for_yx_fixpoint {A} y0 y1 x0 x1 (body : Z → Z → A → A) s :
  (∀ y x, y0 ≤ y < y1 → x0 ≤ x < x1 → body y x s = s) →
  for_yx y0 y1 x0 x1 body s = s.
Proof.
  intros Hbody.
  apply (for_yx_invariant (λ t, t = s)); [done |].
  intros y x t Hy Hx ->. by apply Hbody.
Qed.

(** * Sequences of writes *)

Lemma writes_app ws1 ws2 a : writes (ws1 ++ ws2) a = writes ws2 (writes ws1 a).
Proof. apply foldl_app. Qed.

Lemma length_writes ws a : length (writes ws a) = length a.
Proof.
  revert a. induction ws as [| w ws IH]; intros a; [done |].
  simpl. change (length (writes ws (store a w.1 w.2)) = length a).
  by rewrite IH, length_store.
Qed.

Lemma load_writes_other ws a j :
  j ∉ ws.*1 → load (writes ws a) j = load a j.
Proof.
  revert a. induction ws as [| [i v] ws IH]; intros a Hj; [done |].
  change (load (writes ws (store a i v)) j = load a j).
  rewrite fmap_cons, not_elem_of_cons in Hj. destruct Hj as [Hne Hj].
  rewrite IH by done. apply load_store_ne. by intros ->.
Qed.

(** Every write to [j] carries the value [v], and there is one. *)
Lemma load_writes_same ws a j v :
  0 ≤ j < Z.of_nat (length a) →
  j ∈ ws.*1 →
  (∀ v', (j, v') ∈ ws → v' = v) →
  load (writes ws a) j = Some v.
Proof.
  revert a. induction ws as [| [i w] ws IH]; intros a Hj Hin Hsame.
  { by apply elem_of_nil in Hin. }
  change (load (writes ws (store a i w)) j = Some v).
  destruct (decide (j ∈ ws.*1)) as [Hin' | Hout].
  - apply IH; [by rewrite length_store | done |].
    intros v' Hv'. apply Hsame. by right.
  - rewrite load_writes_other by done.
    rewrite fmap_cons in Hin. apply elem_of_cons in Hin as [Heq | ?]; [| done].
    simpl in Heq. subst i.
    rewrite (Hsame w) by left. by apply load_store_eq.
Qed.

Lemma foldl_writes {B} (f : B → list (Z * Z)) (l : list B) a :
  foldl (λ a b, writes (f b) a) a l = writes (l ≫= f) a.
Proof.
  revert a. induction l as [| b l IH]; intros a; [done |].
  simpl. rewrite IH. change ((b :: l) ≫= f) with (f b ++ (l ≫= f)).
  by rewrite writes_app.
Qed.

Lemma for_yx_writes y0 y1 x0 x1 (f : Z → Z → list (Z * Z)) a :
  for_yx y0 y1 x0 x1 (λ y x, writes (f y x)) a
  = writes (y ← zrange y0 y1; x ← zrange x0 x1; f y x) a.
Proof.
  unfold for_yx. rewrite <- foldl_writes.
  apply foldl_ext. intros s y _. apply foldl_writes.
Qed.

Lemma load_for_yx_writes y0 y1 x0 x1 (f : Z → Z → list (Z * Z)) a j v :
  0 ≤ j < Z.of_nat (length a) →
  (∃ y x, y0 ≤ y < y1 ∧ x0 ≤ x < x1 ∧ (j, v) ∈ f y x) →
  (∀ y x v', y0 ≤ y < y1 → x0 ≤ x < x1 → (j, v') ∈ f y x → v' = v) →
  load (for_yx y0 y1 x0 x1 (λ y x, writes (f y x)) a) j = Some v.
Proof.
  intros Hj (y & x & Hy & Hx & Hin) Hsame.
  rewrite for_yx_writes. apply load_writes_same; [done | |].
  - apply list_elem_of_fmap. exists (j, v). split; [done |].
    apply list_elem_of_bind. exists y. split; [| by apply elem_of_zrange].
    apply list_elem_of_bind. exists x. split; [done | by apply elem_of_zrange].
  - intros v' Hv'.
    apply list_elem_of_bind in Hv' as (y' & Hv' & Hy'%elem_of_zrange).
    apply list_elem_of_bind in Hv' as (x' & Hv' & Hx'%elem_of_zrange).
    by apply (Hsame y' x').
Qed.

Lemma load_for_yx_writes_other y0 y1 x0 x1 (f : Z → Z → list (Z * Z)) a j :
  (∀ y x v, y0 ≤ y < y1 → x0 ≤ x < x1 → (j, v) ∉ f y x) →
  load (for_yx y0 y1 x0 x1 (λ y x, writes (f y x)) a) j = load a j.
Proof.
  intros Hout. rewrite for_yx_writes. apply load_writes_other.
  intros Hin. apply list_elem_of_fmap in Hin as ([j' v] & Hj & Hin).
  simpl in Hj. subst j'.
  apply list_elem_of_bind in Hin as (y & Hin & Hy%elem_of_zrange).
  apply list_elem_of_bind in Hin as (x & Hin & Hx%elem_of_zrange).
  by apply (Hout y x v).
Qed.

Lemma length_for_yx_writes y0 y1 x0 x1 (f : Z → Z → list (Z * Z)) a :
  length (for_yx y0 y1 x0 x1 (λ y x, writes (f y x)) a) = length a.
Proof. rewrite for_yx_writes. apply length_writes. Qed.

(** * Conversion to bytes *)

Lemma roundTiesToEven_comp q q' : q == q' → roundTiesToEven q = roundTiesToEven q'.
Proof.
  intros Heq. unfold roundTiesToEven.
  rewrite (Qfloor_comp _ _ Heq).
  assert (Hc : (q - inject_Z (Qfloor q') ?= 1 # 2)%Q
             = (q' - inject_Z (Qfloor q') ?= 1 # 2)%Q).
  { apply Qcompare_comp; [by rewrite Heq | reflexivity]. }
  by rewrite Hc.
Qed.

Lemma roundTiesToEven_Z v : roundTiesToEven (inject_Z v) = v.
Proof.
  unfold roundTiesToEven. rewrite Qfloor_Z.
  assert (Hlt : (inject_Z v - inject_Z v ?= 1 # 2)%Q = Lt).
  { apply -> Qlt_alt. unfold Qlt. simpl. lia. }
  by rewrite Hlt.
Qed.

Lemma toUint8Clamp_byte q v : q == inject_Z v → 0 ≤ v ≤ 255 → toUint8Clamp q = v.
Proof.
  intros Heq Hv. unfold toUint8Clamp.
  rewrite (roundTiesToEven_comp _ _ Heq), roundTiesToEven_Z. lia.
Qed.

Lemma toUint8Clamp_range q : 0 ≤ toUint8Clamp q ≤ 255.
Proof. unfold toUint8Clamp. lia. Qed.

Lemma well_formed_byte W H data i v :
  well_formed W H data → load data i = Some v → 0 ≤ v ≤ 255.
Proof.
  intros (_ & _ & _ & Hb) Hl. unfold load in Hl.
  destruct (i <? 0); [done |].
  apply list_elem_of_lookup_2, list_elem_of_In in Hl.
  rewrite forallb_forall in Hb. specialize (Hb _ Hl).
  unfold is_byte in Hb. lia.
Qed.

Lemma store_load_None a i v : load a i = None → store a i v = a.
Proof.
  unfold load, store. destruct (Z.ltb_spec i 0); [done |].
  intros Hn. apply list_insert_ge. by apply lookup_ge_None.
Qed.

(** Writing back, as a number, the byte that is already there. *)
Lemma store8_same W H data i (ov : option Q) :
  well_formed W H data →
  (∀ v, load data i = Some v → ∃ q, ov = Some q ∧ q == inject_Z v) →
  store8 data i ov = data.
Proof.
  intros Hwf Hov. unfold store8.
  destruct (load data i) as [v |] eqn:Hl.
  - destruct (Hov v eq_refl) as (q & -> & Hq). simpl.
    rewrite (toUint8Clamp_byte q v Hq); [by apply store_load_id |].
    by eapply well_formed_byte.
  - by apply store_load_None.
Qed.

Lemma store8_copy_same W H data i :
  well_formed W H data → store8 data i (num (load data i)) = data.
Proof.
  intros Hwf. apply (store8_same W H); [done |].
  intros v ->. by exists (inject_Z v).
Qed.

(** * Real-number helpers *)

Lemma Zfloor_IZR z : Zfloor (IZR z) = z.
Proof. apply Zfloor_eq. lra. Qed.

Lemma fmod_one_period (x W : Z) :
  0 ≤ x < W → fmod (IZR x + 0 + IZR W) (IZR W) = IZR x.
Proof.
  intros Hx. unfold fmod, trunc_R.
  assert (HW : (0 < IZR W)%R) by (apply IZR_lt; lia).
  assert (Hx0 : (0 <= IZR x)%R) by (apply IZR_le; lia).
  assert (HxW : (IZR x < IZR W)%R) by (apply IZR_lt; lia).
  assert (Hq : ((IZR x + 0 + IZR W) / IZR W = IZR x / IZR W + 1)%R).
  { field. lra. }
  assert (Hfrac : (0 <= IZR x / IZR W < 1)%R).
  { split.
    - apply Rmult_le_pos; [lra |]. apply Rlt_le, Rinv_0_lt_compat. lra.
    - apply (Rmult_lt_reg_r (IZR W)); [lra |].
      unfold Rdiv. rewrite Rmult_assoc, Rinv_l by lra. lra. }
  rewrite Hq.
  destruct (Rle_dec 0 (IZR x / IZR W + 1)) as [_ | Hn]; [| lra].
  rewrite (Zfloor_eq 1) by lra. lra.
Qed.

(** * Intensity 0 *)

Section IntensityZero.
Variables (W H : Z) (data : list Z) (p : EffectParams).
Hypothesis Hwf : well_formed W H data.
Hypothesis Hzero : intensity p = 0.

Lemma Fractal_displacement_zero y x : Fractal.displacement W H p y x = 0.
Proof.
  unfold Fractal.displacement. rewrite Hzero.
  rewrite (Qfloor_comp _ 0); [done |]. ring.
Qed.

Lemma Wave_displace_zero y x : Wave.displace W H p y x = (0%R, 0%R).
Proof.
  unfold Wave.displace.
  apply (foldl_invariant (λ d, d = (0%R, 0%R))); [done |].
  intros d i _ ->. unfold Wave.harmonic, Wave.waveAmplitude. rewrite Hzero.
  cbn [fst snd]. unfold Rdiv.
  by rewrite !Rmult_0_l, !Rmult_0_r, Rplus_0_l.
Qed.

Lemma Noise_displacement_zero y x : Noise.displacement W H p y x = 0.
Proof.
  unfold Noise.displacement. rewrite Hzero, Rmult_0_r. apply (Zfloor_IZR 0).
Qed.

Lemma Noise_tint_zero cs : Noise.tint p cs == 0.
Proof. unfold Noise.tint. rewrite Hzero. field. Qed.

Lemma rem_small_coord x n d : 0 ≤ x < n → d = 0 → rem (x + d) n = x.
Proof. intros Hx ->. unfold rem. rewrite Z.add_0_r. by apply Z.rem_small. Qed.

Lemma Fractal_pixel_zero y x :
  0 ≤ y < H → 0 ≤ x < W → Fractal.pixel W H data p y x data = data.
Proof.
  intros Hy Hx. unfold Fractal.pixel, Fractal.srcIdx, Fractal.srcX, Fractal.srcY.
  rewrite !rem_small_coord by (done || apply Fractal_displacement_zero).
  by rewrite !(store8_copy_same W H).
Qed.

Lemma Wave_pixel_zero y x :
  0 ≤ y < H → 0 ≤ x < W → Wave.pixel W H data p y x data = data.
Proof.
  intros Hy Hx. unfold Wave.pixel, Wave.srcIdx, Wave.srcX, Wave.srcY.
  rewrite Wave_displace_zero. simpl.
  rewrite !fmod_one_period, !Zfloor_IZR by done.
  by rewrite !(store8_copy_same W H).
Qed.

Lemma min255_byte q v : q == inject_Z v → v ≤ 255 → Noise.min255 q == inject_Z v.
Proof.
  intros Hq Hv. unfold Noise.min255.
  destruct (Qlt_le_dec q 255) as [_ | Hge]; [done |].
  rewrite Hq in Hge. apply Qle_antisym.
  - done.
  - change 255%Q with (inject_Z 255). by rewrite <- Zle_Qle.
Qed.

Lemma Noise_pixel_zero y x :
  0 ≤ y < H → 0 ≤ x < W → Noise.pixel W H data p y x data = data.
Proof.
  intros Hy Hx. unfold Noise.pixel, Noise.srcIdx, Noise.srcX, Noise.srcY.
  rewrite !rem_small_coord by (done || apply Noise_displacement_zero).
  set (cs := Noise.colorShift W H p y x).
  assert (Hch : ∀ i (f : Z → Q),
             (∀ v, f v == inject_Z v + 0 ∨ f v == inject_Z v - 0) →
             store8 data i ((λ v, Noise.min255 (f v)) <$> load data i) = data).
  { intros i f Hf. apply (store8_same W H); [done |].
    intros v Hv. rewrite Hv. eexists. split; [done |].
    apply min255_byte.
    - destruct (Hf v) as [-> | ->]; ring.
    - by apply (well_formed_byte W H data i v Hwf). }
  unfold Noise.red, Noise.green, Noise.blue.
  rewrite (Hch _ (λ v, inject_Z v + Noise.tint p cs)%Q); last first.
  { intros v. left. by rewrite Noise_tint_zero. }
  rewrite (Hch _ (λ v, inject_Z v + Noise.tint p cs / 2)%Q); last first.
  { intros v. left. rewrite Noise_tint_zero. field. }
  rewrite (Hch _ (λ v, inject_Z v - Noise.tint p cs / 2)%Q); last first.
  { intros v. right. rewrite Noise_tint_zero. field. }
  by rewrite (store8_copy_same W H).
Qed.

End IntensityZero.

(** C5.  With [intensity = 0] the Fractal, Wave and Layered-Noise effects
    displace no pixel (the displacement is 0, the wave samples the pixel
    itself, the noise effect's colour term is 0) and return a buffer equal
    to their input. *)
Theorem intensity_zero_is_identity (W H : Z) (data : list Z) (p : EffectParams) :
  well_formed W H data → in_range p → intensity p = 0 →
  (∀ y x, 0 ≤ y < H → 0 ≤ x < W →
     Fractal.displacement W H p y x = 0 ∧
     Wave.displace W H p y x = (0%R, 0%R) ∧
     Wave.srcX W H p y x = x ∧ Wave.srcY W H p y x = y ∧
     Noise.displacement W H p y x = 0 ∧
     Noise.tint p (Noise.colorShift W H p y x) == 0) ∧
  Fractal.applyFractalDisplacement W H data p = data ∧
  Wave.applyWaveDistortion W H data p = data ∧
  Noise.applyPerlinNoiseGlitch W H data p = data.
Proof.
  intros Hwf _ Hzero. split; [| split; [| split]].
  - intros y x Hy Hx. repeat split.
    + by apply Fractal_displacement_zero.
    + by apply Wave_displace_zero.
    + unfold Wave.srcX. rewrite Wave_displace_zero by done. simpl.
      by rewrite fmod_one_period, Zfloor_IZR.
    + unfold Wave.srcY. rewrite Wave_displace_zero by done. simpl.
      by rewrite fmod_one_period, Zfloor_IZR.
    + by apply Noise_displacement_zero.
    + by apply Noise_tint_zero.
  - apply for_yx_fixpoint. intros y x Hy Hx. by apply Fractal_pixel_zero.
  - apply for_yx_fixpoint. intros y x Hy Hx. by apply Wave_pixel_zero.
  - apply for_yx_fixpoint. intros y x Hy Hx. by apply Noise_pixel_zero.
Qed.

Lemma intensity_zero_is_identity_witness :
  let data := [10; 20; 30; 255; 40; 50; 60; 128] in
  let p := mkParams noise 0 50 8 42 in
  Fractal.applyFractalDisplacement 2 1 data p = data ∧
  Wave.applyWaveDistortion 2 1 data p = data ∧
  Noise.applyPerlinNoiseGlitch 2 1 data p = data.
Proof.
  intros data p.
  apply (intensity_zero_is_identity 2 1 data p).
  - repeat split; (lia || reflexivity).
  - unfold in_range. simpl. lia.
  - reflexivity.
Defined.

(** * Chromatic Displacement: which bytes an iteration writes *)

Lemma load_store8_ne a i j ov : i ≠ j → load (store8 a i ov) j = load a j.
Proof. apply load_store_ne. Qed.

Lemma length_store8 a i ov : length (store8 a i ov) = length a.
Proof. apply length_store. Qed.

Lemma Chromatic_pixel_frame W H data dx dy i y x newData j :
  0 ≤ i → j `mod` 4 ≠ i `mod` 3 →
  load (Chromatic.pixel W H data dx dy i y x newData) j = load newData j.
Proof.
  intros Hi Hj. unfold Chromatic.pixel, rem.
  rewrite Z.rem_mod_nonneg by lia.
  set (k := y * W + x).
  destruct (Z.eqb_spec (i `mod` 3) 0) as [H0 | H0];
    [| destruct (Z.eqb_spec (i `mod` 3) 1) as [H1 | H1]];
    apply load_store8_ne; intros <-; apply Hj;
    revert H0; try revert H1; clear; intros;
    Z.div_mod_to_equations; lia.
Qed.

Lemma Chromatic_sweep_frame W H data dx dy i newData j :
  0 ≤ i → j `mod` 4 ≠ i `mod` 3 →
  load (Chromatic.sweep W H data dx dy i newData) j = load newData j.
Proof.
  intros Hi Hj. unfold Chromatic.sweep.
  apply (for_yx_invariant (λ nd, load nd j = load newData j)); [done |].
  intros y x nd _ _ <-. by apply Chromatic_pixel_frame.
Qed.

Lemma Chromatic_alpha W H data p j :
  j `mod` 4 = 3 →
  load (Chromatic.applyChromaticAberration W H data p) j = load data j.
Proof.
  intros Hj. unfold Chromatic.applyChromaticAberration.
  apply (foldl_invariant (λ nd, load nd j = load data j)); [done |].
  intros nd i Hi%elem_of_zrange <-. unfold Chromatic.pass.
  apply Chromatic_sweep_frame; [lia |].
  rewrite Hj. Z.div_mod_to_equations; lia.
Qed.

Lemma zrange_0_1 : zrange 0 1 = [0].
Proof. reflexivity. Qed.
Lemma zrange_0_2 : zrange 0 2 = [0; 1].
Proof. reflexivity. Qed.

(** C10.  Iteration [i] of Chromatic Displacement writes only bytes of
    colour channel [i mod 3]; hence with one iteration green and blue, and
    with two iterations blue, are those of the input at every pixel. *)
Theorem chromatic_iteration_writes_one_channel
    (W H : Z) (data : list Z) (p : EffectParams) :
  (∀ newData i j, 0 ≤ i → j `mod` 4 ≠ i `mod` 3 →
     load (Chromatic.pass W H data p newData i) j = load newData j) ∧
  (iterations p = 1 → ∀ j, j `mod` 4 = 1 ∨ j `mod` 4 = 2 →
     load (Chromatic.applyChromaticAberration W H data p) j = load data j) ∧
  (iterations p = 2 → ∀ j, j `mod` 4 = 2 →
     load (Chromatic.applyChromaticAberration W H data p) j = load data j).
Proof.
  split; [| split].
  - intros newData i j Hi Hj. by apply Chromatic_sweep_frame.
  - intros Hn j Hj. unfold Chromatic.applyChromaticAberration.
    rewrite Hn, zrange_0_1. simpl.
    apply Chromatic_sweep_frame; [done |]. change (0 `mod` 3) with 0. lia.
  - intros Hn j Hj. unfold Chromatic.applyChromaticAberration.
    rewrite Hn, zrange_0_2. simpl. unfold Chromatic.pass.
    rewrite !Chromatic_sweep_frame; [done | done | | done |].
    + change (0 `mod` 3) with 0. lia.
    + change (1 `mod` 3) with 1. lia.
Qed.

(** * Cellular Evolution *)

(** Row-major cell indices determine the coordinates. *)
Lemma cell_index_inj W y x y' x' :
  0 ≤ x < W → 0 ≤ x' < W → y * W + x = y' * W + x' → y = y' ∧ x = x'.
Proof. intros Hx Hx' Heq. assert (y = y') by nia. subst. lia. Qed.

Lemma generation_writes W H grid :
  Cellular.generation W H grid
  = for_yx 1 (H - 1) 1 (W - 1)
      (λ y x, writes [(y * W + x, Cellular.rule W grid y x)]) grid.
Proof. reflexivity. Qed.

Lemma length_generation W H grid :
  length (Cellular.generation W H grid) = length grid.
Proof. rewrite generation_writes. apply length_for_yx_writes. Qed.

Lemma generation_border W H grid y x :
  0 ≤ x < W → border W H y x →
  load (Cellular.generation W H grid) (y * W + x) = load grid (y * W + x).
Proof.
  intros Hx Hb. rewrite generation_writes.
  apply load_for_yx_writes_other.
  intros y' x' v Hy' Hx' Hin. apply list_elem_of_singleton in Hin.
  injection Hin as Heq _.
  apply cell_index_inj in Heq as [-> ->]; [| lia..].
  unfold border in Hb. lia.
Qed.

Lemma generation_interior W H grid y x :
  Z.of_nat (length grid) = W * H →
  1 ≤ y < H - 1 → 1 ≤ x < W - 1 →
  load (Cellular.generation W H grid) (y * W + x)
  = Some (Cellular.rule W grid y x).
Proof.
  intros Hlen Hy Hx. rewrite generation_writes.
  apply load_for_yx_writes.
  - nia.
  - exists y, x. repeat split; try lia. by apply list_elem_of_singleton.
  - intros y' x' v' Hy' Hx' Hin. apply list_elem_of_singleton in Hin.
    injection Hin as Heq ->.
    by apply cell_index_inj in Heq as [-> ->]; [| lia..].
Qed.

Lemma length_evolve W H n grid :
  length (Cellular.evolve W H n grid) = length grid.
Proof.
  unfold Cellular.evolve.
  apply (foldl_invariant (λ g, length g = length grid)); [done |].
  intros g _ _ <-. apply length_generation.
Qed.

Lemma evolve_border W H n grid y x :
  0 ≤ x < W → border W H y x →
  load (Cellular.evolve W H n grid) (y * W + x) = load grid (y * W + x).
Proof.
  intros Hx Hb. unfold Cellular.evolve.
  apply (foldl_invariant (λ g, load g (y * W + x) = load grid (y * W + x)));
    [done |].
  intros g _ _ <-. by apply generation_border.
Qed.

(** The initial grid. *)
Lemma length_initGrid W H data :
  0 ≤ W * H → Z.of_nat (length (Cellular.initGrid W H data)) = W * H.
Proof.
  intros Hpos. unfold Cellular.initGrid.
  change (foldl (λ grid k, store grid k (Cellular.cell data (4 * k))))
    with (foldl (λ grid k, writes [(k, Cellular.cell data (4 * k))] grid)).
  rewrite foldl_writes, length_writes, length_replicate. lia.
Qed.

Lemma load_initGrid W H data k :
  Z.of_nat (length data) = W * H * 4 → 0 ≤ k < W * H →
  load (Cellular.initGrid W H data) k = Some (Cellular.cell data (4 * k)).
Proof.
  intros Hlen Hk. unfold Cellular.initGrid.
  change (foldl (λ grid k, store grid k (Cellular.cell data (4 * k))))
    with (foldl (λ grid k, writes [(k, Cellular.cell data (4 * k))] grid)).
  rewrite foldl_writes. apply load_writes_same.
  - rewrite length_replicate. lia.
  - apply list_elem_of_fmap. exists (k, Cellular.cell data (4 * k)).
    split; [done |]. apply list_elem_of_bind. exists k.
    split; [by apply list_elem_of_singleton |].
    apply elem_of_zrange. rewrite Hlen. Z.div_mod_to_equations; lia.
  - intros v' Hin. apply list_elem_of_bind in Hin as (k' & Hin & _).
    apply list_elem_of_singleton in Hin. by injection Hin as -> ->.
Qed.

(** The recolouring loop. *)
Lemma recolor_as_writes p data grid :
  Cellular.recolor p data grid
  = writes (zrange 0 (Z.of_nat (length grid)) ≫= recolor_writes p data grid) data.
Proof.
  unfold Cellular.recolor. rewrite <- foldl_writes.
  apply foldl_ext. intros nd i _.
  unfold recolor_writes, writes, store8. simpl. by rewrite Z.add_0_r.
Qed.

Lemma length_recolor p data grid :
  length (Cellular.recolor p data grid) = length data.
Proof. rewrite recolor_as_writes. apply length_writes. Qed.

Lemma load_recolor p data grid i c :
  0 ≤ i < Z.of_nat (length grid) → 0 ≤ c < 3 →
  i * 4 + c < Z.of_nat (length data) →
  load (Cellular.recolor p data grid) (i * 4 + c)
  = Some (toUint8ClampOpt
            (Cellular.shade p (load grid i) (load data (i * 4 + c)))).
Proof.
  intros Hi Hc Hlen. rewrite recolor_as_writes.
  apply load_writes_same; [lia | |].
  - apply list_elem_of_fmap. eexists (_, _). split; [done |].
    apply list_elem_of_bind. exists i. split; [| by apply elem_of_zrange].
    unfold recolor_writes. apply list_elem_of_fmap. exists c. split; [done |].
    assert (c = 0 ∨ c = 1 ∨ c = 2) as [-> | [-> | ->]] by lia;
      repeat constructor.
  - intros v' Hin. apply list_elem_of_bind in Hin as (i' & Hin & _).
    unfold recolor_writes in Hin.
    apply list_elem_of_fmap in Hin as (c' & Heq & Hc').
    assert (0 ≤ c' < 3).
    { repeat (apply elem_of_cons in Hc' as [-> | Hc']; [lia |]).
      by apply elem_of_nil in Hc'. }
    injection Heq as Hidx ->.
    assert (i' = i) as -> by lia. assert (c' = c) as -> by lia. done.
Qed.

Lemma recolor_alpha p data grid j :
  j `mod` 4 = 3 → load (Cellular.recolor p data grid) j = load data j.
Proof.
  intros Hj. rewrite recolor_as_writes. apply load_writes_other.
  intros Hin. apply list_elem_of_fmap in Hin as ([j' v] & Hj' & Hin).
  simpl in Hj'. subst j'.
  apply list_elem_of_bind in Hin as (i & Hin & _).
  apply list_elem_of_fmap in Hin as (c & Heq & Hc).
  injection Heq as -> _.
  repeat (apply elem_of_cons in Hc as [-> | Hc];
          [revert Hj; clear; intros; Z.div_mod_to_equations; lia |]).
  by apply elem_of_nil in Hc.
Qed.



(** * Chromatic Displacement: the offset magnitude *)

Lemma offsetAmount_div p : Chromatic.offsetAmount p = intensity p `div` 5.
Proof.
  unfold Chromatic.offsetAmount. unfold Qfloor. simpl.
  change (Z.pos (1 * 10)) with (5 * 2).
  apply Z.div_mul_cancel_r; lia.
Qed.

Lemma offset_div p i :
  Chromatic.offset p i
  = (intensity p `div` 5 * (i + 1)) `div` iterations p.
Proof.
  unfold Chromatic.offset. by rewrite <- Zdiv_Qdiv, offsetAmount_div.
Qed.

Lemma spec_offset_multiple_of_5 p i :
  intensity p `mod` 5 = 0 →
  spec_offset p i = (intensity p `div` 5 * (i + 1)) `div` iterations p.
Proof.
  intros Hm. unfold spec_offset. rewrite Zdiv_Qdiv. apply Qfloor_comp.
  assert (Hi : intensity p = 5 * (intensity p `div` 5)).
  { rewrite (Z.div_mod (intensity p) 5) at 1 by lia. lia. }
  set (k := intensity p `div` 5) in *. rewrite Hi.
  rewrite !inject_Z_mult.
  destruct (Z.eq_dec (iterations p) 0) as [-> | Hn].
  - unfold Qdiv. change (/ inject_Z 0)%Q with 0%Q. ring.
  - field. intros Hq. apply Hn.
    by apply (inject_Z_injective _ 0).
Qed.

(** C7 (as the specification states it) fails: the code floors
    [intensity * 0.2] before scaling by [(i + 1) / n]. *)
Lemma chromatic_offset_counterexample :
  let p := mkParams chromatic 9 60 3 42 in
  in_range p ∧ 0 ≤ 1 < iterations p ∧
  Chromatic.offset p 1 = 0 ∧ spec_offset p 1 = 1.
Proof. unfold in_range. simpl. repeat split; lia || reflexivity. Qed.

(** C7, amended.  The offset at iteration [i] is
    [floor(floor(intensity * 0.2) * (i + 1) / n)]; it is the specification's
    [floor(intensity * 0.2 * (i + 1) / n)] whenever [intensity] is a
    multiple of 5. *)
Theorem chromatic_offset_double_floor (p : EffectParams) (i : Z) :
  in_range p → 0 ≤ i < iterations p →
  Chromatic.offset p i
  = (intensity p `div` 5 * (i + 1)) `div` iterations p ∧
  (intensity p `mod` 5 = 0 → Chromatic.offset p i = spec_offset p i).
Proof.
  intros _ _. split; [apply offset_div |].
  intros Hm. by rewrite offset_div, spec_offset_multiple_of_5.
Qed.

Lemma chromatic_offset_double_floor_witness :
  let p := mkParams chromatic 85 60 16 42 in
  Chromatic.offset p 7 = (85 `div` 5 * (7 + 1)) `div` 16 ∧
  (85 `mod` 5 = 0 → Chromatic.offset p 7 = spec_offset p 7).
Proof.
  intros p. apply (chromatic_offset_double_floor p 7).
  - unfold in_range. simpl. lia.
  - simpl. lia.
Defined.

(** * The constructor's size computation *)

Lemma targetSize_within_bounds w h :
  w ≤ Loader.maxWidth → h ≤ Loader.maxHeight → Loader.targetSize w h = (w, h).
Proof.
  intros Hw Hh. unfold Loader.targetSize.
  destruct (Z.gtb_spec w Loader.maxWidth); [lia |].
  destruct (Z.gtb_spec h Loader.maxHeight); [lia | done].
Qed.

(** C3.  The code picks the side to pin by [width > height], not by which
    side exceeds its bound the most: a 1000 by 900 source becomes 800 by
    720, and a 700 by 650 source is enlarged to 800 by 743; both are
    taller than [maxHeight]. *)
Theorem targetSize_exceeds_maxHeight :
  Loader.targetSize 1000 900 = (800, 720) ∧
  Loader.targetSize 700 650 = (800, 743) ∧
  Loader.maxHeight = 600.
Proof. repeat split; reflexivity. Qed.

(** * The constructor and the canvas *)

Lemma targetSize_zero_side w h :
  0 ≤ w → 0 ≤ h → w = 0 ∨ h = 0 →
  (Loader.targetSize w h).1 = 0 ∨ (Loader.targetSize w h).2 = 0.
Proof.
  intros Hw Hh Hz. unfold Loader.targetSize.
  destruct ((w >? Loader.maxWidth) || (h >? Loader.maxHeight)) eqn:Hbig;
    [| simpl; lia].
  destruct (Z.gtb_spec w h) as [Hgt | Hle]; simpl.
  - right. destruct (Z.eqb_spec h 0); [done | lia].
  - left. assert (w = 0) as -> by lia.
    unfold round_Q. rewrite (Qfloor_comp _ (1 # 2)); [done |].
    unfold Qdiv. change (inject_Z 0) with 0%Q. ring.
Qed.

Lemma constructor_throws_only_canvas canvas w h e :
  Loader.constructor canvas w h = Loader.Thrown e →
  canvas (Loader.targetSize w h).1 (Loader.targetSize w h).2 = inl e.
Proof.
  unfold Loader.constructor. destruct (Loader.targetSize w h) as [w' h'].
  simpl. destruct (canvas w' h'); [by intros [= ->] | done].
Qed.

(** C9 (as the specification states it) fails: for a source without area
    the constructor ends with the canvas's [IndexSizeError], not with
    [InvalidImage]. *)
Lemma constructor_zero_area_counterexample :
  Loader.constructor (Loader.htmlCanvas blank) 0 5
  = Loader.Thrown Loader.IndexSizeError ∧
  Loader.constructor (Loader.htmlCanvas blank) 0 5
  ≠ Loader.Thrown Loader.InvalidImage.
Proof. split; [reflexivity | discriminate]. Qed.

(** C9, amended.  The constructor validates nothing itself: whatever it
    throws was thrown by [getImageData], so it throws [InvalidImage] on no
    canvas that does not; a source with a zero side gives a target with a
    zero side, for which the HTML canvas throws [IndexSizeError] and no
    buffer is built. *)
Theorem constructor_zero_area_fails_in_canvas (w h : Z) :
  0 ≤ w → 0 ≤ h → w = 0 ∨ h = 0 →
  (∀ pixels, Loader.constructor (Loader.htmlCanvas pixels) w h
             = Loader.Thrown Loader.IndexSizeError) ∧
  (∀ canvas e, Loader.constructor canvas w h = Loader.Thrown e →
               canvas (Loader.targetSize w h).1 (Loader.targetSize w h).2
               = inl e) ∧
  (∀ canvas, (∀ sw sh, canvas sw sh ≠ inl Loader.InvalidImage) →
             Loader.constructor canvas w h
             ≠ Loader.Thrown Loader.InvalidImage).
Proof.
  intros Hw Hh Hz. split; [| split].
  - intros pixels. unfold Loader.constructor, Loader.htmlCanvas.
    pose proof (targetSize_zero_side w h Hw Hh Hz) as Hside.
    destruct (Loader.targetSize w h) as [w' h']. simpl in Hside.
    destruct Hside as [-> | ->]; [done |]. by rewrite orb_true_r.
  - intros canvas e. apply constructor_throws_only_canvas.
  - intros canvas Hc Hthrown.
    apply constructor_throws_only_canvas in Hthrown. by apply Hc in Hthrown.
Qed.

Lemma constructor_zero_area_fails_in_canvas_witness :
  Loader.constructor (Loader.htmlCanvas blank) 1024 0
  = Loader.Thrown Loader.IndexSizeError.
Proof.
  apply (constructor_zero_area_fails_in_canvas 1024 0); lia.
Defined.

(** * The dispatcher *)

Lemma clamp_in_range lo hi v : lo ≤ v ≤ hi → clamp lo hi v = v.
Proof. unfold clamp. lia. Qed.

Lemma spec_clampParams_in_range p : in_range p → spec_clampParams p = p.
Proof.
  intros (Hi & Hs & Hn). destruct p as [t i s n sd]. simpl in *.
  unfold spec_clampParams. simpl. by rewrite !clamp_in_range.
Qed.




(** * Wrap-around of sampled coordinates *)

Lemma round_R_IZR z : round_R (IZR z) = z.
Proof. unfold round_R. apply Zfloor_eq. lra. Qed.

Lemma fmod_negative_small a b :
  (0 < b)%R → (- b < a < 0)%R → fmod a b = a.
Proof.
  intros Hb Ha. unfold fmod, trunc_R.
  assert (Hq : (-1 < a / b < 0)%R).
  { split.
    - apply (Rmult_lt_reg_r b); [done |].
      unfold Rdiv. rewrite Rmult_assoc, Rinv_l by lra. lra.
    - apply (Rmult_lt_reg_r b); [done |].
      unfold Rdiv. rewrite Rmult_assoc, Rinv_l by lra. lra. }
  destruct (Rle_dec 0 (a / b)) as [Hge | _]; [lra |].
  rewrite (Zfloor_eq 0) by lra. change (IZR (- 0)) with 0%R. lra.
Qed.

Lemma inv_sqrt2_lower : (2 / 3 < 1 / sqrt 2)%R.
Proof.
  assert (Hs : (0 < sqrt 2)%R) by (apply sqrt_lt_R0; lra).
  assert (Hsq : (sqrt 2 * sqrt 2 = 2)%R) by (apply sqrt_sqrt; lra).
  assert (Hlt : (sqrt 2 < 3 / 2)%R) by nra.
  apply (Rmult_lt_reg_r (sqrt 2)); [done |].
  replace (1 / sqrt 2 * sqrt 2)%R with 1%R by (field; lra). lra.
Qed.

Lemma cos_3_bounds : (-1 <= cos 3 < - (2 / 3))%R.
Proof.
  split; [apply COS_bound |].
  pose proof PI2_3_2 as Hlo. pose proof PI_4 as Hhi.
  assert (Hle : (cos 3 <= cos (3 * (PI / 4)))%R).
  { apply cos_decr_1; lra. }
  rewrite cos_3PI4 in Hle. pose proof inv_sqrt2_lower. lra.
Qed.

(** Chromatic Displacement, intensity 100, two iterations: the second
    iteration shifts by 20 pixels to the left. *)
Lemma Chromatic_dx_minus_20 :
  Chromatic.dx (mkParams chromatic 100 60 2 42) 1 = -20.
Proof.
  unfold Chromatic.dx.
  replace (Chromatic.offset _ 1) with 20 by reflexivity.
  replace (Chromatic.angle _ 1) with PI
    by (unfold Chromatic.angle; simpl; field).
  rewrite cos_PI. replace (-1 * 20)%R with (IZR (-20)) by lra.
  apply round_R_IZR.
Qed.

(** Wave Distortion, scale 60, intensity 30, one harmonic, on a 2 by 2
    image: the displacement of pixel (x = 1, y = 0). *)
Lemma Wave_displace_example :
  Wave.displace 2 2 (mkParams wave 30 60 1 42) 0 1 = (0%R, (cos 3 * 3)%R).
Proof.
  unfold Wave.displace. simpl iterations. rewrite zrange_0_1. simpl foldl.
  unfold Wave.harmonic, Wave.waveFrequency, Wave.waveAmplitude.
  cbn [fst snd intensity scale]. f_equal.
  - replace (0 * (60 * (1 / 10) * (0 + 1)) / 2)%R with 0%R by lra.
    rewrite sin_0. lra.
  - replace (1 * (60 * (1 / 10) * (0 + 1)) / 2)%R with 3%R by lra.
    replace (30 * (1 / 10) / (0 + 1))%R with 3%R by lra. lra.
Qed.

Lemma Wave_srcY_example :
  Wave.srcY 2 2 (mkParams wave 30 60 1 42) 0 1 = -1.
Proof.
  unfold Wave.srcY. rewrite Wave_displace_example. cbn [snd].
  pose proof cos_3_bounds as Hc.
  rewrite fmod_negative_small by lra.
  apply Zfloor_eq. lra.
Qed.

Lemma Wave_srcX_example :
  Wave.srcX 2 2 (mkParams wave 30 60 1 42) 0 1 = 1.
Proof.
  unfold Wave.srcX. rewrite Wave_displace_example. cbn [fst].
  rewrite (fmod_one_period 1 2) by lia. apply Zfloor_IZR.
Qed.

(** C1.  The wrap [(v + d + size) % size] covers one period only.  With
    intensity 100 and two iterations Chromatic Displacement samples column
    [-2] of a 3-pixel-wide image; with scale 60, intensity 30 and one
    harmonic Wave Distortion samples row [-1] of a 2 by 2 image. *)
Theorem wrap_leaves_the_source_buffer :
  Chromatic.dx (mkParams chromatic 100 60 2 42) 1 = -20 ∧
  Chromatic.srcX 3 0 (Chromatic.dx (mkParams chromatic 100 60 2 42) 1) = -2 ∧
  Wave.srcY 2 2 (mkParams wave 30 60 1 42) 0 1 = -1.
Proof.
  split; [apply Chromatic_dx_minus_20 |].
  split; [by rewrite Chromatic_dx_minus_20 | apply Wave_srcY_example].
Qed.

(** * Pixel-copy loops, pixel by pixel *)

Lemma elem_of_pixel_writes W y x val j v :
  (j, v) ∈ pixel_writes W y x val ↔
  ∃ c, 0 ≤ c < 4 ∧ j = (y * W + x) * 4 + c ∧ v = val c.
Proof.
  unfold pixel_writes. rewrite list_elem_of_fmap. split.
  - intros (c & [= -> ->] & Hc). exists c. split; [| done].
    repeat (apply elem_of_cons in Hc as [-> | Hc]; [lia |]).
    by apply elem_of_nil in Hc.
  - intros (c & Hc & -> & ->). exists c. split; [done |].
    assert (c = 0 ∨ c = 1 ∨ c = 2 ∨ c = 3) as [-> | [-> | [-> | ->]]] by lia;
      repeat constructor.
Qed.

Lemma for_yx_ext {A} y0 y1 x0 x1 (body body' : Z → Z → A → A) s :
  (∀ y x s, body y x s = body' y x s) →
  for_yx y0 y1 x0 x1 body s = for_yx y0 y1 x0 x1 body' s.
Proof.
  intros Hb. unfold for_yx. apply foldl_ext. intros s1 y _.
  apply foldl_ext. intros s2 x _. apply Hb.
Qed.

Lemma load_pixel_loop W H (val : Z → Z → Z → Z) a y x c :
  Z.of_nat (length a) = W * H * 4 →
  0 ≤ y < H → 0 ≤ x < W → 0 ≤ c < 4 →
  load (for_yx 0 H 0 W (λ y x, writes (pixel_writes W y x (val y x))) a)
       ((y * W + x) * 4 + c)
  = Some (val y x c).
Proof.
  intros Hlen Hy Hx Hc. apply load_for_yx_writes.
  - nia.
  - exists y, x. repeat split; try lia.
    apply elem_of_pixel_writes. by exists c.
  - intros y' x' v' Hy' Hx' Hin.
    apply elem_of_pixel_writes in Hin as (c' & Hc' & Heq & ->).
    assert (c' = c) as -> by lia.
    assert (y' * W + x' = y * W + x) as Hcell by lia.
    by apply cell_index_inj in Hcell as [-> ->].
Qed.

Lemma Fractal_pixel_writes W H data p y x newData :
  Fractal.pixel W H data p y x newData
  = writes (pixel_writes W y x
              (λ c, toUint8ClampOpt
                      (num (load data (Fractal.srcIdx W H p y x + c)))))
      newData.
Proof.
  unfold Fractal.pixel, pixel_writes, writes, store8. simpl.
  by rewrite !Z.add_0_r.
Qed.

Lemma Wave_pixel_writes W H data p y x newData :
  Wave.pixel W H data p y x newData
  = writes (pixel_writes W y x
              (λ c, toUint8ClampOpt
                      (num (load data (Wave.srcIdx W H p y x + c)))))
      newData.
Proof.
  unfold Wave.pixel, pixel_writes, writes, store8. simpl.
  by rewrite !Z.add_0_r.
Qed.

Lemma Noise_pixel_writes W H data p y x newData :
  Noise.pixel W H data p y x newData
  = writes (pixel_writes W y x (Noise_byte W H data p y x)) newData.
Proof.
  unfold Noise.pixel, pixel_writes, writes, store8, Noise_byte. simpl.
  by rewrite !Z.add_0_r.
Qed.

Lemma load_Fractal W H data p y x c :
  Z.of_nat (length data) = W * H * 4 →
  0 ≤ y < H → 0 ≤ x < W → 0 ≤ c < 4 →
  load (Fractal.applyFractalDisplacement W H data p) ((y * W + x) * 4 + c)
  = Some (toUint8ClampOpt (num (load data (Fractal.srcIdx W H p y x + c)))).
Proof.
  intros Hlen Hy Hx Hc. unfold Fractal.applyFractalDisplacement.
  rewrite (for_yx_ext _ _ _ _ _ _ _ (Fractal_pixel_writes W H data p)).
  by apply (load_pixel_loop W H
    (λ y x c, toUint8ClampOpt (num (load data (Fractal.srcIdx W H p y x + c))))).
Qed.

Lemma load_Wave W H data p y x c :
  Z.of_nat (length data) = W * H * 4 →
  0 ≤ y < H → 0 ≤ x < W → 0 ≤ c < 4 →
  load (Wave.applyWaveDistortion W H data p) ((y * W + x) * 4 + c)
  = Some (toUint8ClampOpt (num (load data (Wave.srcIdx W H p y x + c)))).
Proof.
  intros Hlen Hy Hx Hc. unfold Wave.applyWaveDistortion.
  rewrite (for_yx_ext _ _ _ _ _ _ _ (Wave_pixel_writes W H data p)).
  by apply (load_pixel_loop W H
    (λ y x c, toUint8ClampOpt (num (load data (Wave.srcIdx W H p y x + c))))).
Qed.

Lemma load_Noise W H data p y x c :
  Z.of_nat (length data) = W * H * 4 →
  0 ≤ y < H → 0 ≤ x < W → 0 ≤ c < 4 →
  load (Noise.applyPerlinNoiseGlitch W H data p) ((y * W + x) * 4 + c)
  = Some (Noise_byte W H data p y x c).
Proof.
  intros Hlen Hy Hx Hc. unfold Noise.applyPerlinNoiseGlitch.
  rewrite (for_yx_ext _ _ _ _ _ _ _ (Noise_pixel_writes W H data p)).
  by apply (load_pixel_loop W H (Noise_byte W H data p)).
Qed.

(** * Layered-Noise Displacement: the normalised noise value *)

Lemma sin_cos_product_bound a b : (-1 <= sin a * cos b <= 1)%R.
Proof.
  pose proof (SIN_bound a). pose proof (COS_bound b). split; nra.
Qed.

Lemma octave_ok_step W H p y x o i :
  octave_ok o → octave_ok (Noise.octave W H p y x o i).
Proof.
  intros (Ha & Hm & Hn). unfold octave_ok, Noise.octave. simpl.
  set (sx := (IZR x * Noise.frequency o * Noise.noiseScale p / IZR W * PI)%R).
  set (sy := (IZR y * Noise.frequency o * Noise.noiseScale p / IZR H * PI)%R).
  pose proof (sin_cos_product_bound sx sy) as Ht.
  rewrite Rmult_assoc. set (t := (sin sx * cos sy)%R) in *.
  repeat split; nra.
Qed.

Lemma octaves_ok W H p y x :
  1 ≤ iterations p →
  let o := Noise.octaves W H p y x in
  (0 < Noise.maxValue o)%R ∧
  (- Noise.maxValue o <= Noise.noiseValue o <= Noise.maxValue o)%R.
Proof.
  intros Hn. unfold Noise.octaves.
  replace (iterations p) with (iterations p - 1 + 1) by lia.
  rewrite zrange_snoc, foldl_snoc by lia.
  set (o' := foldl _ _ _).
  assert (Ho' : octave_ok o').
  { apply foldl_invariant.
    - unfold octave_ok. simpl. lra.
    - intros o i _. apply octave_ok_step. }
  destruct (octave_ok_step W H p y x o' (iterations p - 1) Ho')
    as (_ & _ & Hnv).
  destruct Ho' as (Ha & Hm & _). simpl in *. split; [lra | done].
Qed.

Lemma normalized_range W H p y x :
  1 ≤ iterations p → (0 <= Noise.normalized W H p y x <= 1)%R.
Proof.
  intros Hn. unfold Noise.normalized.
  destruct (octaves_ok W H p y x Hn) as (Hm & Hnv).
  set (o := Noise.octaves W H p y x) in *.
  assert (Hq : (-1 <= Noise.noiseValue o / Noise.maxValue o <= 1)%R).
  { split.
    - apply (Rmult_le_reg_r (Noise.maxValue o)); [done |].
      unfold Rdiv. rewrite Rmult_assoc, Rinv_l by lra. lra.
    - apply (Rmult_le_reg_r (Noise.maxValue o)); [done |].
      unfold Rdiv. rewrite Rmult_assoc, Rinv_l by lra. lra. }
  lra.
Qed.

Lemma Noise_displacement_nonneg W H p y x :
  in_range p → 0 ≤ Noise.displacement W H p y x.
Proof.
  intros (Hi & _ & Hn). unfold Noise.displacement.
  apply Zfloor_lub. pose proof (normalized_range W H p y x) as Hr.
  assert (0 <= IZR (intensity p))%R by (apply IZR_le; lia).
  apply Rmult_le_pos; [apply Hr; lia | done].
Qed.

Lemma rem_in_range v d n : 0 ≤ v → 0 ≤ d → 1 ≤ n → 0 ≤ rem (v + d) n < n.
Proof. intros Hv Hd Hn. unfold rem. apply Z.rem_bound_pos; lia. Qed.

(** The noise effect samples inside the source. *)
Lemma Noise_src_in_range W H p y x :
  1 ≤ W → 1 ≤ H → in_range p → 0 ≤ y < H → 0 ≤ x < W →
  0 ≤ Noise.srcX W H p y x < W ∧ 0 ≤ Noise.srcY W H p y x < H.
Proof.
  intros HW HH Hp Hy Hx.
  pose proof (Noise_displacement_nonneg W H p y x Hp).
  split; apply rem_in_range; lia.
Qed.

(** * Fractal Displacement: the displacement is not negative *)

Lemma escape_nonneg px py ks zx zy mv :
  (∀ k, k ∈ ks → 0 ≤ k) → 0 ≤ mv → 0 ≤ Fractal.escape px py ks zx zy mv.
Proof.
  revert zx zy mv. induction ks as [| i ks IH]; intros zx zy mv Hks Hmv; [done |].
  simpl. destruct (Qlt_le_dec _ _).
  - apply Hks. left.
  - apply IH; [| apply Hks; left]. intros k Hk. apply Hks. by right.
Qed.

Lemma Fractal_displacement_nonneg W H p y x :
  in_range p → 0 ≤ Fractal.displacement W H p y x.
Proof.
  intros (Hi & _ & Hn). unfold Fractal.displacement.
  change 0 with (Qfloor 0). apply Qfloor_resp_le.
  assert (Hmv : 0 ≤ Fractal.mandelbrotValue W H p y x).
  { apply escape_nonneg; [| done]. intros k Hk%elem_of_zrange. lia. }
  apply Qmult_le_0_compat.
  - apply Qmult_le_0_compat.
    + change 0%Q with (inject_Z 0). by rewrite <- Zle_Qle.
    + apply Qinv_le_0_compat. change 0%Q with (inject_Z 0).
      rewrite <- Zle_Qle. lia.
  - change 0%Q with (inject_Z 0). rewrite <- Zle_Qle. lia.
Qed.

(** The fractal effect samples inside the source. *)
Lemma Fractal_src_in_range W H p y x :
  1 ≤ W → 1 ≤ H → in_range p → 0 ≤ y < H → 0 ≤ x < W →
  0 ≤ Fractal.srcX W H p y x < W ∧ 0 ≤ Fractal.srcY W H p y x < H.
Proof.
  intros HW HH Hp Hy Hx.
  pose proof (Fractal_displacement_nonneg W H p y x Hp).
  split; apply rem_in_range; lia.
Qed.

Lemma sample_index_in_range W H sy sx c (data : list Z) :
  Z.of_nat (length data) = W * H * 4 →
  0 ≤ sx < W → 0 ≤ sy < H → 0 ≤ c < 4 →
  is_Some (load data ((sy * W + sx) * 4 + c)).
Proof. intros Hlen Hx Hy Hc. apply load_is_Some. nia. Qed.

(** * Layered-Noise Displacement: the stored channels *)

Lemma Noise_normalized_origin p :
  iterations p = 1 → Noise.normalized 1 1 p 0 0 = (1 / 2)%R.
Proof.
  intros Hn. unfold Noise.normalized, Noise.octaves.
  rewrite Hn, zrange_0_1. simpl foldl. unfold Noise.octave. simpl.
  replace (0 * 1 * Noise.noiseScale p / 1 * PI)%R with 0%R by lra.
  rewrite sin_0. lra.
Qed.

Lemma Noise_sample_origin :
  let p := mkParams noise 100 10 1 42 in
  Noise.colorShift 1 1 p 0 0 = 127 ∧ Noise.srcIdx 1 1 p 0 0 = 0.
Proof.
  intros p. unfold Noise.srcIdx, Noise.srcX, Noise.srcY,
    Noise.displacement, Noise.colorShift.
  rewrite Noise_normalized_origin by done. simpl intensity.
  rewrite (Zfloor_eq 127) by lra. rewrite (Zfloor_eq 50) by lra. done.
Qed.




(** * Alpha *)

Lemma Cellular_alpha W H data p j :
  j `mod` 4 = 3 →
  load (Cellular.applyCellularAutomata W H data p) j = load data j.
Proof. intros Hj. by apply recolor_alpha. Qed.

(** Fractal and Layered-Noise copy the alpha of the pixel they sample,
    which exists. *)
Lemma Fractal_Noise_alpha W H data p y x :
  well_formed W H data → in_range p → 0 ≤ y < H → 0 ≤ x < W →
  (∃ a, load data (Fractal.srcIdx W H p y x + 3) = Some a ∧
        load (Fractal.applyFractalDisplacement W H data p)
             ((y * W + x) * 4 + 3) = Some a) ∧
  (∃ a, load data (Noise.srcIdx W H p y x + 3) = Some a ∧
        load (Noise.applyPerlinNoiseGlitch W H data p)
             ((y * W + x) * 4 + 3) = Some a).
Proof.
  intros Hwf Hp Hy Hx. pose proof Hwf as (HW & HH & Hlen & _).
  destruct (Fractal_src_in_range W H p y x HW HH Hp Hy Hx) as [Hfx Hfy].
  destruct (Noise_src_in_range W H p y x HW HH Hp Hy Hx) as [Hnx Hny].
  split.
  - destruct (sample_index_in_range W H _ _ 3 data Hlen Hfx Hfy) as [a Ha];
      [lia |].
    exists a. split; [done |]. rewrite load_Fractal by (done || lia).
    unfold Fractal.srcIdx. rewrite Ha. simpl. f_equal.
    apply toUint8Clamp_byte; [done |]. by eapply well_formed_byte.
  - destruct (sample_index_in_range W H _ _ 3 data Hlen Hnx Hny) as [a Ha];
      [lia |].
    exists a. split; [done |]. rewrite load_Noise by (done || lia).
    unfold Noise_byte, Noise.srcIdx. rewrite Ha. simpl. f_equal.
    apply toUint8Clamp_byte; [done |]. by eapply well_formed_byte.
Qed.

(** C8.  Chromatic Displacement, Cellular Evolution, Fractal and
    Layered-Noise treat alpha as stated (lemmas [Chromatic_alpha],
    [Cellular_alpha], [Fractal_Noise_alpha]).  Wave Distortion does not:
    on a 2 by 2 image whose four pixels have alpha 255, with scale 60,
    intensity 30 and one harmonic, pixel (x = 1, y = 0) samples byte index
    [-4], which is outside the buffer, and its alpha becomes 0. *)
Theorem wave_alpha_lost_outside_buffer :
  let data := uniform 4 [10; 20; 30; 255] in
  let p := mkParams wave 30 60 1 42 in
  data = [10; 20; 30; 255; 10; 20; 30; 255; 10; 20; 30; 255; 10; 20; 30; 255] ∧
  Wave.srcIdx 2 2 p 0 1 = -4 ∧
  load (Wave.applyWaveDistortion 2 2 data p) ((0 * 2 + 1) * 4 + 3) = Some 0.
Proof.
  intros data p. split; [reflexivity |].
  assert (Hsrc : Wave.srcIdx 2 2 p 0 1 = -4).
  { unfold Wave.srcIdx, p.
    by rewrite Wave_srcY_example, Wave_srcX_example. }
  split; [done |].
  rewrite load_Wave by (done || lia). by rewrite Hsrc.
Qed.

Lemma chromatic_iteration_writes_one_channel_witness :
  let data := [10; 20; 30; 255; 40; 50; 60; 128] in
  let p := mkParams chromatic 85 60 1 42 in
  load (Chromatic.pass 2 1 data p data 4) 6 = load data 6 ∧
  load (Chromatic.applyChromaticAberration 2 1 data p) 5 = load data 5.
Proof.
  intros data p.
  destruct (chromatic_iteration_writes_one_channel 2 1 data p)
    as (Hpass & Hone & _).
  split.
  - apply Hpass; [lia | vm_compute; discriminate].
  - apply Hone; [reflexivity | left; reflexivity].
Defined.

(** * Shape and byte range of every effect *)

Lemma bytes_ok_forallb a : forallb is_byte a = true ↔ bytes_ok a.
Proof.
  split.
  - intros Hb i v Hl. unfold load in Hl. destruct (i <? 0); [done |].
    apply list_elem_of_lookup_2, list_elem_of_In in Hl.
    rewrite forallb_forall in Hb. specialize (Hb _ Hl).
    unfold is_byte in Hb. lia.
  - intros Hb. apply forallb_forall. intros v Hv.
    apply list_elem_of_In, list_elem_of_lookup_1 in Hv as [k Hk].
    specialize (Hb (Z.of_nat k) v). unfold load in Hb.
    destruct (Z.ltb_spec (Z.of_nat k) 0); [lia |].
    rewrite Nat2Z.id in Hb. specialize (Hb Hk). unfold is_byte. lia.
Qed.

Lemma load_store_inv a i v j w :
  load (store a i v) j = Some w → load a j = Some w ∨ (j = i ∧ w = v).
Proof.
  destruct (decide (i = j)) as [-> | Hne].
  - intros Hl. pose proof (load_Some_range _ _ _ Hl) as Hr.
    rewrite length_store in Hr. rewrite load_store_eq in Hl by done.
    right. by injection Hl as ->.
  - rewrite load_store_ne by done. by left.
Qed.

Lemma bytes_ok_store8 a i ov : bytes_ok a → bytes_ok (store8 a i ov).
Proof.
  intros Ha j w Hl. apply load_store_inv in Hl as [Hl | [_ ->]].
  - by apply (Ha j).
  - unfold toUint8ClampOpt. destruct ov; simpl; [apply toUint8Clamp_range | lia].
Qed.

(** Every loop body of the five effects is a sequence of [store8]; a
    property of buffers that [store8] keeps is kept by [process]. *)
Section Store8Invariant.
Variable P : list Z → Prop.
Hypothesis P_store8 : ∀ a i ov, P a → P (store8 a i ov).

Lemma store8_invariant_Chromatic W H data p :
  P data → P (Chromatic.applyChromaticAberration W H data p).
Proof.
  intros Hd. unfold Chromatic.applyChromaticAberration.
  apply foldl_invariant; [done |]. intros nd i _ Hnd.
  unfold Chromatic.pass, Chromatic.sweep.
  apply for_yx_invariant; [done |]. intros y x s _ _ Hs.
  unfold Chromatic.pixel.
  destruct (rem i 3 =? 0); [| destruct (rem i 3 =? 1)]; by apply P_store8.
Qed.

Lemma store8_invariant_Fractal W H data p :
  P data → P (Fractal.applyFractalDisplacement W H data p).
Proof.
  intros Hd. unfold Fractal.applyFractalDisplacement.
  apply for_yx_invariant; [done |]. intros y x s _ _ Hs.
  unfold Fractal.pixel. cbv zeta. by do 4 apply P_store8.
Qed.

Lemma store8_invariant_Wave W H data p :
  P data → P (Wave.applyWaveDistortion W H data p).
Proof.
  intros Hd. unfold Wave.applyWaveDistortion.
  apply for_yx_invariant; [done |]. intros y x s _ _ Hs.
  unfold Wave.pixel. cbv zeta. by do 4 apply P_store8.
Qed.

Lemma store8_invariant_Noise W H data p :
  P data → P (Noise.applyPerlinNoiseGlitch W H data p).
Proof.
  intros Hd. unfold Noise.applyPerlinNoiseGlitch.
  apply for_yx_invariant; [done |]. intros y x s _ _ Hs.
  unfold Noise.pixel. cbv zeta. by do 4 apply P_store8.
Qed.

Lemma store8_invariant_Cellular W H data p :
  P data → P (Cellular.applyCellularAutomata W H data p).
Proof.
  intros Hd. unfold Cellular.applyCellularAutomata, Cellular.recolor.
  apply foldl_invariant; [done |]. intros nd i _ Hnd.
  cbv zeta. by do 3 apply P_store8.
Qed.

Lemma store8_invariant_process W H data p :
  P data → P (process W H data p).
Proof.
  intros Hd. unfold process. destruct (effectType p).
  - by apply store8_invariant_Chromatic.
  - by apply store8_invariant_Fractal.
  - by apply store8_invariant_Cellular.
  - by apply store8_invariant_Wave.
  - by apply store8_invariant_Noise.
Qed.

End Store8Invariant.

(** X1.  Whatever the effect and the parameters, [process] returns a
    buffer with as many bytes as its input, and a well-formed [W] by [H]
    RGBA buffer (every byte in [0,255]) when its input is one. *)
Theorem process_keeps_shape (W H : Z) (data : list Z) (p : EffectParams) :
  length (process W H data p) = length data ∧
  (well_formed W H data → well_formed W H (process W H data p)).
Proof.
  assert (Hlen : length (process W H data p) = length data).
  { apply (store8_invariant_process (λ a, length a = length data));
      [| done]. intros a i ov <-. apply length_store8. }
  split; [done |]. intros (HW & HH & Hl & Hb).
  repeat split; [done | done | by rewrite Hlen |].
  apply bytes_ok_forallb.
  apply (store8_invariant_process bytes_ok); [apply bytes_ok_store8 |].
  by apply bytes_ok_forallb.
Qed.

Lemma process_keeps_shape_witness :
  well_formed 1 2 (process 1 2 [1; 2; 3; 4; 250; 251; 252; 253]
                     (mkParams wave 80 40 20 789)).
Proof.
  apply (process_keeps_shape 1 2). repeat split; (lia || reflexivity).
Defined.

(** * Parameters for which an effect changes nothing *)

Lemma round_Q_byte q v : q == inject_Z v → round_Q q = v.
Proof.
  intros Hq. unfold round_Q.
  rewrite (Qfloor_comp _ (inject_Z v + (1 # 2))) by (by rewrite Hq).
  unfold Qfloor. simpl. Z.div_mod_to_equations. lia.
Qed.

Lemma rem_one_period x n : 0 ≤ x < n → rem (x + 0 + n) n = x.
Proof.
  intros Hx. unfold rem. rewrite Z.rem_mod_nonneg by lia.
  rewrite Z.add_0_r, <- (Z.mul_1_l n) at 1.
  rewrite Z_mod_plus_full. by apply Z.mod_small.
Qed.

Lemma store8_blend_same W H data k :
  well_formed W H data →
  store8 data k (Chromatic.blend (load data k) (load data k)) = data.
Proof.
  intros Hwf. apply (store8_same W H); [done |]. intros v ->.
  eexists. split; [done |].
  rewrite (round_Q_byte _ v); [done |]. field.
Qed.

Lemma Chromatic_pixel_unshifted W H data i y x :
  well_formed W H data → 0 ≤ y < H → 0 ≤ x < W →
  Chromatic.pixel W H data 0 0 i y x data = data.
Proof.
  intros Hwf Hy Hx. unfold Chromatic.pixel, Chromatic.srcX, Chromatic.srcY.
  rewrite !rem_one_period by done.
  destruct (rem i 3 =? 0); [| destruct (rem i 3 =? 1)];
    by apply (store8_blend_same W H).
Qed.

Lemma Chromatic_offset_below_5 p i :
  0 ≤ intensity p < 5 → Chromatic.offset p i = 0.
Proof.
  intros Hi. rewrite offset_div.
  by rewrite (Z.div_small (intensity p) 5), Z.mul_0_l, Zdiv_0_l.
Qed.

Lemma Chromatic_unshifted_below_5 p i :
  0 ≤ intensity p < 5 → Chromatic.dx p i = 0 ∧ Chromatic.dy p i = 0.
Proof.
  intros Hi. unfold Chromatic.dx, Chromatic.dy.
  rewrite Chromatic_offset_below_5 by done.
  rewrite !Rmult_0_r. split; apply (round_R_IZR 0).
Qed.

Lemma Chromatic_fixed_below_5 W H data p :
  well_formed W H data → 0 ≤ intensity p < 5 →
  Chromatic.applyChromaticAberration W H data p = data.
Proof.
  intros Hwf Hi. unfold Chromatic.applyChromaticAberration.
  apply (foldl_invariant (λ nd, nd = data)); [done |].
  intros nd i _ ->. unfold Chromatic.pass.
  destruct (Chromatic_unshifted_below_5 p i Hi) as [-> ->].
  apply for_yx_fixpoint. intros y x Hy Hx.
  by apply Chromatic_pixel_unshifted.
Qed.

(** X2.  Chromatic Displacement returns its input unchanged for every
    intensity below 5: the offset [floor(intensity * 0.2)] is then 0, each
    iteration samples the destination pixel itself, and the average of a
    byte with itself is that byte. *)
Theorem chromatic_identity_below_5 (W H : Z) (data : list Z) (p : EffectParams) :
  well_formed W H data → 0 ≤ intensity p < 5 →
  (∀ i, Chromatic.dx p i = 0 ∧ Chromatic.dy p i = 0) ∧
  Chromatic.applyChromaticAberration W H data p = data.
Proof.
  intros Hwf Hi. split; [| by apply Chromatic_fixed_below_5].
  intros i. by apply Chromatic_unshifted_below_5.
Qed.

Lemma chromatic_identity_below_5_witness :
  Chromatic.applyChromaticAberration 1 2 [1; 2; 3; 4; 250; 251; 252; 253]
    (mkParams chromatic 4 60 16 42)
  = [1; 2; 3; 4; 250; 251; 252; 253].
Proof.
  apply (chromatic_identity_below_5 1 2).
  - repeat split; (lia || reflexivity).
  - simpl. lia.
Defined.

(** The recolouring loop writes back what is there when the darkening
    [cellValue * intensity] is 0 for every cell. *)
Lemma recolor_fixed W H p data grid :
  well_formed W H data →
  (∀ i, 0 ≤ i < Z.of_nat (length grid) →
     ∃ c, load grid i = Some c ∧ c * intensity p = 0) →
  Cellular.recolor p data grid = data.
Proof.
  intros Hwf Hgrid. unfold Cellular.recolor.
  apply (foldl_invariant (λ nd, nd = data)); [done |].
  intros nd i Hi%elem_of_zrange ->.
  destruct (Hgrid i Hi) as (c & -> & Hc). cbv zeta.
  assert (Hk : ∀ k, store8 data k (Cellular.shade p (Some c) (load data k))
                    = data).
  { intros k. apply (store8_same W H); [done |]. intros v ->.
    eexists. split; [done |].
    rewrite (round_Q_byte _ v); [done |].
    rewrite <- inject_Z_mult, Hc. field. }
  by rewrite !Hk.
Qed.

Lemma load_total_grid (grid : list Z) i :
  0 ≤ i < Z.of_nat (length grid) → ∃ c, load grid i = Some c.
Proof. intros Hi. by apply load_is_Some. Qed.

(** X3.  With intensity 0 every one of the five effects returns its input
    unchanged. *)
Theorem process_identity_at_intensity_0
    (W H : Z) (data : list Z) (p : EffectParams) :
  well_formed W H data → in_range p → intensity p = 0 →
  process W H data p = data.
Proof.
  intros Hwf _ Hzero. unfold process. destruct (effectType p).
  - apply Chromatic_fixed_below_5; [done | lia].
  - apply for_yx_fixpoint. intros y x Hy Hx. by apply Fractal_pixel_zero.
  - apply (recolor_fixed W H); [done |]. intros i Hi.
    destruct (load_total_grid _ i Hi) as [c Hc]. exists c.
    split; [done |]. rewrite Hzero. lia.
  - apply for_yx_fixpoint. intros y x Hy Hx. by apply Wave_pixel_zero.
  - apply for_yx_fixpoint. intros y x Hy Hx. by apply Noise_pixel_zero.
Qed.

Lemma process_identity_at_intensity_0_witness :
  process 1 2 [1; 2; 3; 4; 250; 251; 252; 253] (mkParams cellular 0 50 12 456)
  = [1; 2; 3; 4; 250; 251; 252; 253].
Proof.
  apply process_identity_at_intensity_0.
  - repeat split; (lia || reflexivity).
  - unfold in_range. simpl. lia.
  - reflexivity.
Defined.

(** * Fractal Displacement with a single iteration *)

Lemma Fractal_pixel_undisplaced W H data p y x :
  well_formed W H data → 0 ≤ y < H → 0 ≤ x < W →
  Fractal.displacement W H p y x = 0 →
  Fractal.pixel W H data p y x data = data.
Proof.
  intros Hwf Hy Hx Hd.
  unfold Fractal.pixel, Fractal.srcIdx, Fractal.srcX, Fractal.srcY.
  rewrite !rem_small_coord by done.
  by rewrite !(store8_copy_same W H).
Qed.

Lemma Fractal_displacement_one_iteration W H p y x :
  iterations p = 1 → Fractal.displacement W H p y x = 0.
Proof.
  intros Hn. unfold Fractal.displacement, Fractal.mandelbrotValue.
  rewrite Hn, zrange_0_1. simpl Fractal.escape.
  rewrite (Qfloor_comp _ 0); [done |]. field.
Qed.

(** X4.  With [iterations = 1] Fractal Displacement returns its input
    unchanged, whatever the intensity and the scale: the escape loop runs
    once from z = 0, never escapes there, and leaves the escape index and
    so the displacement at 0. *)
Theorem fractal_identity_with_one_iteration
    (W H : Z) (data : list Z) (p : EffectParams) :
  well_formed W H data → iterations p = 1 →
  (∀ y x, Fractal.displacement W H p y x = 0) ∧
  Fractal.applyFractalDisplacement W H data p = data.
Proof.
  intros Hwf Hn. split.
  - intros y x. by apply Fractal_displacement_one_iteration.
  - apply for_yx_fixpoint. intros y x Hy Hx.
    apply Fractal_pixel_undisplaced; [done.. |].
    by apply Fractal_displacement_one_iteration.
Qed.

Lemma fractal_identity_with_one_iteration_witness :
  Fractal.applyFractalDisplacement 1 2 [1; 2; 3; 4; 250; 251; 252; 253]
    (mkParams fractal 100 200 1 123)
  = [1; 2; 3; 4; 250; 251; 252; 253].
Proof.
  apply (fractal_identity_with_one_iteration 1 2).
  - repeat split; (lia || reflexivity).
  - reflexivity.
Defined.

(** * Cellular Evolution: the grid *)

Lemma load_writes_inv ws a j v :
  load (writes ws a) j = Some v → load a j = Some v ∨ (j, v) ∈ ws.
Proof.
  revert a. induction ws as [| [i w] ws IH]; intros a Hl; [by left |].
  change (load (writes ws (store a i w)) j = Some v) in Hl.
  apply IH in Hl as [Hl | Hin]; [| right; by right].
  apply load_store_inv in Hl as [Hl | [-> ->]]; [by left | right; left].
Qed.

Lemma load_for_yx_writes_inv y0 y1 x0 x1 (f : Z → Z → list (Z * Z)) a j v :
  load (for_yx y0 y1 x0 x1 (λ y x, writes (f y x)) a) j = Some v →
  load a j = Some v ∨
  ∃ y x, y0 ≤ y < y1 ∧ x0 ≤ x < x1 ∧ (j, v) ∈ f y x.
Proof.
  rewrite for_yx_writes. intros Hl.
  apply load_writes_inv in Hl as [Hl | Hin]; [by left | right].
  apply list_elem_of_bind in Hin as (y & Hin & Hy%elem_of_zrange).
  apply list_elem_of_bind in Hin as (x & Hin & Hx%elem_of_zrange).
  by exists y, x.
Qed.

Lemma rule_binary W grid y x :
  Cellular.rule W grid y x = 0 ∨ Cellular.rule W grid y x = 1.
Proof. unfold Cellular.rule. repeat case_decide; auto. Qed.

Lemma cell_binary data i : Cellular.cell data i = 0 ∨ Cellular.cell data i = 1.
Proof.
  unfold Cellular.cell.
  destruct (load data i), (load data (i + 1)), (load data (i + 2)); auto.
  destruct (Qlt_le_dec _ _); auto.
Qed.

Lemma binary_generation W H grid :
  binary grid → binary (Cellular.generation W H grid).
Proof.
  intros Hg k v Hl. rewrite generation_writes in Hl.
  apply load_for_yx_writes_inv in Hl as [Hl | (y & x & _ & _ & Hin)].
  - by apply (Hg k).
  - apply list_elem_of_singleton in Hin. injection Hin as _ ->.
    apply rule_binary.
Qed.

Lemma binary_initGrid W H data : binary (Cellular.initGrid W H data).
Proof.
  unfold Cellular.initGrid.
  apply (foldl_invariant binary).
  - intros k v Hl. unfold load in Hl. destruct (k <? 0); [done |].
    apply lookup_replicate in Hl as [-> _]. by left.
  - intros g k _ Hg j v Hl.
    apply load_store_inv in Hl as [Hl | [_ ->]]; [by apply (Hg j) |].
    apply cell_binary.
Qed.

Lemma binary_evolve W H n grid :
  binary grid → binary (Cellular.evolve W H n grid).
Proof.
  intros Hg. unfold Cellular.evolve.
  apply (foldl_invariant binary); [done |].
  intros g _ _. apply binary_generation.
Qed.

(** X5.  The grid stays binary: every cell of the initial grid and of
    every later generation is 0 or 1. *)
Theorem cellular_grid_is_binary (W H n : Z) (data : list Z) :
  binary (Cellular.evolve W H n (Cellular.initGrid W H data)).
Proof. apply binary_evolve, binary_initGrid. Qed.

(** * Cellular Evolution: grids without interior *)

Lemma generation_thin W H grid :
  W ≤ 2 ∨ H ≤ 2 → Cellular.generation W H grid = grid.
Proof.
  intros Hthin. unfold Cellular.generation, for_yx.
  apply (foldl_invariant (λ g, g = grid)); [done |].
  intros g y Hy%elem_of_zrange ->.
  destruct Hthin as [HW | HH]; [| lia].
  by rewrite (zrange_nil 1 (W - 1)) by lia.
Qed.

(** X6.  An image at most 2 pixels wide or at most 2 pixels high has no
    interior cell: the grid is the initial one after any number of
    generations, and the effect darkens by the luminance of the input
    alone. *)
Theorem cellular_thin_image_never_evolves
    (W H : Z) (data : list Z) (p : EffectParams) :
  W ≤ 2 ∨ H ≤ 2 →
  (∀ n grid, Cellular.evolve W H n grid = grid) ∧
  Cellular.applyCellularAutomata W H data p
  = Cellular.recolor p data (Cellular.initGrid W H data).
Proof.
  intros Hthin.
  assert (Hev : ∀ n grid, Cellular.evolve W H n grid = grid).
  { intros n grid. unfold Cellular.evolve.
    apply (foldl_invariant (λ g, g = grid)); [done |].
    intros g _ _ ->. by apply generation_thin. }
  split; [done |]. unfold Cellular.applyCellularAutomata. by rewrite Hev.
Qed.

Lemma cellular_thin_image_never_evolves_witness :
  Cellular.applyCellularAutomata 2 5 (uniform 10 [200; 200; 200; 255])
    (mkParams cellular 90 50 12 456)
  = Cellular.recolor (mkParams cellular 90 50 12 456)
      (uniform 10 [200; 200; 200; 255])
      (Cellular.initGrid 2 5 (uniform 10 [200; 200; 200; 255])).
Proof.
  apply (cellular_thin_image_never_evolves 2 5). left. lia.
Defined.

(** * Cellular Evolution: an image without a bright pixel *)

Lemma neighbors_all_dead W grid y x :
  all_dead grid →
  Cellular.neighbors W grid y x = Some 0 ∨ Cellular.neighbors W grid y x = None.
Proof.
  intros Hg. unfold Cellular.neighbors.
  apply (for_yx_invariant (λ n, n = Some 0 ∨ n = None)); [by left |].
  intros dy dx n _ _ Hn. destruct ((dx =? 0) && (dy =? 0)); [done |].
  destruct Hn as [-> | ->]; [| by right].
  destruct (load grid _) as [v |] eqn:Hl; [| by right].
  apply Hg in Hl as ->. by left.
Qed.

Lemma rule_all_dead W grid y x : all_dead grid → Cellular.rule W grid y x = 0.
Proof.
  intros Hg. unfold Cellular.rule.
  destruct (neighbors_all_dead W grid y x Hg) as [Hn | Hn]; rewrite Hn.
  - case_decide as Hl; [by apply Hg in Hl |]. by case_decide.
  - case_decide as Hl; [by apply Hg in Hl |]. by case_decide.
Qed.

Lemma all_dead_generation W H grid :
  all_dead grid → all_dead (Cellular.generation W H grid).
Proof.
  intros Hg k v Hl. rewrite generation_writes in Hl.
  apply load_for_yx_writes_inv in Hl as [Hl | (y & x & _ & _ & Hin)].
  - by apply (Hg k).
  - apply list_elem_of_singleton in Hin. injection Hin as _ ->.
    by apply rule_all_dead.
Qed.

Lemma all_dead_evolve W H n grid :
  all_dead grid → all_dead (Cellular.evolve W H n grid).
Proof.
  intros Hg. unfold Cellular.evolve.
  apply (foldl_invariant all_dead); [done |].
  intros g _ _. apply all_dead_generation.
Qed.

Lemma cell_outside data i :
  Z.of_nat (length data) ≤ i → Cellular.cell data i = 0.
Proof.
  intros Hi. unfold Cellular.cell.
  destruct (load data i) as [r |] eqn:Hl; [| done].
  apply load_Some_range in Hl. lia.
Qed.

Lemma all_dead_initGrid W H data :
  Z.of_nat (length data) = W * H * 4 → dark W H data →
  all_dead (Cellular.initGrid W H data).
Proof.
  intros Hlen Hdark. unfold Cellular.initGrid.
  apply (foldl_invariant all_dead).
  - intros k v Hl. unfold load in Hl. destruct (k <? 0); [done |].
    by apply lookup_replicate in Hl as [-> _].
  - intros g k Hk%elem_of_zrange Hg j v Hl.
    apply load_store_inv in Hl as [Hl | [_ ->]]; [by apply (Hg j) |].
    destruct (decide (k < W * H)) as [Hin | Hout].
    + unfold dark in Hdark. rewrite forallb_forall in Hdark.
      specialize (Hdark k). apply Z.eqb_eq, Hdark.
      apply list_elem_of_In, elem_of_zrange. lia.
    + apply cell_outside. lia.
Qed.



(** * Cellular Evolution never brightens *)

Lemma shade_not_brighter p c v :
  0 ≤ intensity p ≤ 100 → c = 0 ∨ c = 1 → 0 ≤ v ≤ 255 →
  toUint8ClampOpt (Cellular.shade p (Some c) (Some v)) ≤ v.
Proof.
  intros Hi Hc Hv. unfold Cellular.shade, toUint8ClampOpt. simpl.
  unfold toUint8Clamp. rewrite roundTiesToEven_Z.
  assert (round_Q (inject_Z v
            * (1 - inject_Z c * inject_Z (intensity p) / 100)) ≤ v); [| lia].
  rewrite <- (round_Q_byte (inject_Z v) v) at 2 by done.
  unfold round_Q. apply Qfloor_resp_le.
  apply Qplus_le_l.
  set (t := (inject_Z c * inject_Z (intensity p) / 100)%Q).
  assert (Ht : (0 <= t <= 1)%Q).
  { unfold t. rewrite <- inject_Z_mult. split.
    - apply Qle_shift_div_l; [done |]. rewrite Qmult_0_l.
      change 0%Q with (inject_Z 0). rewrite <- Zle_Qle. nia.
    - apply Qle_shift_div_r; [done |]. rewrite Qmult_1_l.
      change 100%Q with (inject_Z 100). rewrite <- Zle_Qle. nia. }
  rewrite <- (Qmult_1_r (inject_Z v)) at 2.
  apply Qmult_le_compat_nonneg.
  - split; [| apply Qle_refl].
    change 0%Q with (inject_Z 0). rewrite <- Zle_Qle. lia.
  - clearbody t. destruct t as [tn td], Ht as [Ht0 Ht1].
    unfold Qle in *. simpl in *. lia.
Qed.

(** X8.  Cellular Evolution never brightens: for in-range intensity every
    byte of the output is at most the byte of the input at the same
    position, and every alpha byte is equal to it. *)
Theorem cellular_never_brightens
    (W H : Z) (data : list Z) (p : EffectParams) (j v : Z) :
  well_formed W H data → in_range p → load data j = Some v →
  ∃ v', load (Cellular.applyCellularAutomata W H data p) j = Some v' ∧
        v' ≤ v ∧ (j `mod` 4 = 3 → v' = v).
Proof.
  intros Hwf (Hi & _ & _) Hj.
  set (out := Cellular.applyCellularAutomata W H data p).
  assert (Hlen : length out = length data) by apply length_recolor.
  destruct (load_is_Some out j) as [v' Hv'].
  { rewrite Hlen. by eapply load_Some_range. }
  exists v'. split; [done |]. split.
  - revert v' Hv'. unfold out, Cellular.applyCellularAutomata.
    set (grid := Cellular.evolve _ _ _ _).
    assert (Hbin : binary grid) by apply binary_evolve, binary_initGrid.
    unfold Cellular.recolor.
    apply (foldl_invariant (λ nd, ∀ v', load nd j = Some v' → v' ≤ v)).
    { intros v' Hv'. rewrite Hj in Hv'. injection Hv' as ->. lia. }
    intros nd i Hi'%elem_of_zrange Hnd. cbv zeta.
    destruct (load_total_grid grid i Hi') as [c Hc]. rewrite Hc.
    assert (Hstep : ∀ nd k, (∀ v', load nd j = Some v' → v' ≤ v) →
              ∀ v', load (store8 nd k (Cellular.shade p (Some c) (load data k))) j
                    = Some v' → v' ≤ v).
    { intros nd' k Hnd' v' Hl.
      apply load_store_inv in Hl as [Hl | [-> ->]]; [by apply Hnd' |].
      rewrite Hj. apply shade_not_brighter; [done | by eapply Hbin |].
      by eapply well_formed_byte. }
    by do 3 apply Hstep.
  - intros Hmod. unfold out in Hv'. rewrite Cellular_alpha, Hj in Hv' by done.
    by injection Hv' as ->.
Qed.

Lemma cellular_never_brightens_witness :
  ∃ v', load (Cellular.applyCellularAutomata 1 1 [200; 210; 220; 255]
                (mkParams cellular 90 50 12 456)) 1 = Some v' ∧
        v' ≤ 210 ∧ (1 `mod` 4 = 3 → v' = 210).
Proof.
  apply (cellular_never_brightens 1 1).
  - repeat split; (lia || reflexivity).
  - unfold in_range. simpl. lia.
  - reflexivity.
Defined.

(** * Where the effects sample *)

(** X9.  For in-range parameters Fractal Displacement and Layered-Noise
    Displacement displace by a non-negative amount and sample inside the
    source: both coordinates lie in [0,W) x [0,H). *)
Theorem fractal_noise_sample_inside (W H : Z) (p : EffectParams) (y x : Z) :
  1 ≤ W → 1 ≤ H → in_range p → 0 ≤ y < H → 0 ≤ x < W →
  0 ≤ Fractal.displacement W H p y x ∧
  0 ≤ Fractal.srcX W H p y x < W ∧ 0 ≤ Fractal.srcY W H p y x < H ∧
  0 ≤ Noise.displacement W H p y x ∧
  0 ≤ Noise.srcX W H p y x < W ∧ 0 ≤ Noise.srcY W H p y x < H.
Proof.
  intros HW HH Hp Hy Hx.
  destruct (Fractal_src_in_range W H p y x) as [? ?]; [done.. |].
  destruct (Noise_src_in_range W H p y x) as [? ?]; [done.. |].
  pose proof (Fractal_displacement_nonneg W H p y x Hp).
  pose proof (Noise_displacement_nonneg W H p y x Hp).
  done.
Qed.

Lemma fractal_noise_sample_inside_witness :
  0 ≤ Fractal.displacement 7 3 (mkParams fractal 75 120 32 123) 2 6 ∧
  0 ≤ Fractal.srcX 7 3 (mkParams fractal 75 120 32 123) 2 6 < 7 ∧
  0 ≤ Fractal.srcY 7 3 (mkParams fractal 75 120 32 123) 2 6 < 3 ∧
  0 ≤ Noise.displacement 7 3 (mkParams fractal 75 120 32 123) 2 6 ∧
  0 ≤ Noise.srcX 7 3 (mkParams fractal 75 120 32 123) 2 6 < 7 ∧
  0 ≤ Noise.srcY 7 3 (mkParams fractal 75 120 32 123) 2 6 < 3.
Proof.
  apply fractal_noise_sample_inside; try lia. unfold in_range. simpl. lia.
Defined.

(** ** Chromatic Displacement *)

Lemma round_R_bound (r : R) (k : Z) :
  (- IZR k <= r <= IZR k)%R → - k ≤ round_R r ≤ k.
Proof.
  intros Hr. unfold round_R. split.
  - apply Zfloor_lub. rewrite opp_IZR. lra.
  - pose proof (Zfloor_bound (r + / 2)) as [Hlo _].
    assert (IZR (Zfloor (r + / 2)) < IZR (k + 1))%R as Hlt.
    { rewrite plus_IZR. lra. }
    apply lt_IZR in Hlt. lia.
Qed.

Lemma Chromatic_offset_bound p i :
  in_range p → 0 ≤ i < iterations p →
  0 ≤ Chromatic.offset p i ≤ intensity p `div` 5.
Proof.
  intros (Hi & _ & Hn) Hlt. rewrite offset_div.
  assert (0 ≤ intensity p `div` 5) by (apply Z.div_pos; lia).
  split.
  - apply Z.div_pos; nia.
  - apply Z.div_le_upper_bound; nia.
Qed.

Lemma Chromatic_shift_bound p i :
  in_range p → 0 ≤ i < iterations p →
  - (intensity p `div` 5) ≤ Chromatic.dx p i ≤ intensity p `div` 5 ∧
  - (intensity p `div` 5) ≤ Chromatic.dy p i ≤ intensity p `div` 5.
Proof.
  intros Hp Hi. pose proof (Chromatic_offset_bound p i Hp Hi) as [Ho0 Ho].
  assert (Hk : ∀ t : R, (-1 <= t <= 1)%R →
    - (intensity p `div` 5)
    ≤ round_R (t * IZR (Chromatic.offset p i)) ≤ intensity p `div` 5).
  { intros t Ht.
    assert (0 <= IZR (Chromatic.offset p i))%R by (by apply IZR_le).
    pose proof (round_R_bound (t * IZR (Chromatic.offset p i))
                  (Chromatic.offset p i)) as Hb.
    destruct Hb; [split; nra | lia]. }
  split; apply Hk; [apply COS_bound | apply SIN_bound].
Qed.

Lemma rem_shifted_in_range v d n :
  0 ≤ v < n → - n ≤ d → 0 ≤ rem (v + d + n) n < n.
Proof. intros Hv Hd. unfold rem. apply Z.rem_bound_pos; lia. Qed.

(** X10.  In Chromatic Displacement the pixel shift of every iteration is
    at most [floor(intensity / 5)], hence at most 20, in each direction;
    when the image is at least that wide and high, every sampled
    coordinate lies in [0,W) x [0,H). *)
Theorem chromatic_sample_inside (W H : Z) (p : EffectParams) (i y x : Z) :
  in_range p → 0 ≤ i < iterations p →
  - 20 ≤ Chromatic.dx p i ≤ 20 ∧ - 20 ≤ Chromatic.dy p i ≤ 20 ∧
  (intensity p `div` 5 ≤ W → intensity p `div` 5 ≤ H →
   0 ≤ y < H → 0 ≤ x < W →
   0 ≤ Chromatic.srcX W x (Chromatic.dx p i) < W ∧
   0 ≤ Chromatic.srcY H y (Chromatic.dy p i) < H).
Proof.
  intros Hp Hi. pose proof (Chromatic_shift_bound p i Hp Hi) as [Hdx Hdy].
  destruct Hp as (Hint & _ & _).
  assert (intensity p `div` 5 ≤ 20).
  { apply Z.div_le_upper_bound; lia. }
  split; [lia |]. split; [lia |].
  intros HW HH Hy Hx. split; apply rem_shifted_in_range; lia.
Qed.

Lemma chromatic_sample_inside_witness :
  0 ≤ Chromatic.srcX 17 0 (Chromatic.dx (mkParams chromatic 85 60 16 42) 8) < 17 ∧
  0 ≤ Chromatic.srcY 17 3 (Chromatic.dy (mkParams chromatic 85 60 16 42) 8) < 17.
Proof.
  apply (chromatic_sample_inside 17 17 (mkParams chromatic 85 60 16 42) 8 3 0);
    try (simpl; lia); try (vm_compute; discriminate).
  unfold in_range. simpl. lia.
Defined.

(** ** Wave Distortion *)

Lemma Q2R_inject_Z z : Q2R (inject_Z z) = IZR z.
Proof. unfold Q2R. simpl. field. Qed.

Lemma harmonic_number_S k :
  Q2R (harmonic_number (S k))
  = (Q2R (harmonic_number k) + 1 / (IZR (Z.of_nat k) + 1))%R.
Proof.
  cbn [harmonic_number]. rewrite Q2R_plus. f_equal.
  unfold Qdiv. rewrite Q2R_mult, Q2R_inv, !Q2R_inject_Z.
  - rewrite Nat2Z.inj_succ, succ_IZR. change (Q2R 1) with (1 * / 1)%R.
    unfold Rdiv. by rewrite Rinv_1, Rmult_1_r.
  - intros Hq. unfold Qeq in Hq. simpl in Hq. lia.
Qed.

Lemma harmonic_number_mono k m :
  (k ≤ m)%nat → (harmonic_number k <= harmonic_number m)%Q.
Proof.
  induction 1 as [| m _ IH]; [apply Qle_refl |].
  eapply Qle_trans; [exact IH |]. cbn [harmonic_number].
  rewrite <- (Qplus_0_r (harmonic_number m)) at 1.
  apply Qplus_le_r. apply Qle_shift_div_l.
  - change 0%Q with (inject_Z 0). rewrite <- Zlt_Qlt. lia.
  - by rewrite Qmult_0_l.
Qed.

Lemma harmonic_number_64 : (harmonic_number 64 <= 475 # 100)%Q.
Proof. by vm_compute. Qed.

Lemma Wave_displace_bound_nat W H p y x (k : nat) :
  (0 <= Wave.waveAmplitude p)%R →
  let d := foldl (Wave.harmonic W H p y x) (0%R, 0%R) (zrange 0 (Z.of_nat k)) in
  let b := (Wave.waveAmplitude p * Q2R (harmonic_number k))%R in
  (- b <= d.1 <= b)%R ∧ (- b <= d.2 <= b)%R.
Proof.
  intros HA. induction k as [| k IH].
  - simpl. change (Q2R 0) with (0 * / 1)%R. split; lra.
  - rewrite Nat2Z.inj_succ, <- Z.add_1_r, zrange_snoc, foldl_snoc by lia.
    cbv zeta in IH. set (d := foldl _ _ _) in *.
    cbv zeta. rewrite harmonic_number_S.
    set (h := Q2R (harmonic_number k)) in *.
    unfold Wave.harmonic. cbn [fst snd].
    set (A := Wave.waveAmplitude p) in *.
    set (n1 := (IZR (Z.of_nat k) + 1)%R).
    assert (Hn1 : (0 < n1)%R).
    { unfold n1. assert (0 <= IZR (Z.of_nat k))%R by (apply IZR_le; lia).
      lra. }
    assert (Hq : (0 <= A / n1)%R).
    { apply Rmult_le_pos; [done |]. by apply Rlt_le, Rinv_0_lt_compat. }
    replace (A * (h + 1 / n1))%R with (A * h + A / n1)%R by (field; lra).
    set (s := sin _). set (c := cos _).
    pose proof (SIN_bound (IZR y * (Wave.waveFrequency p * n1) / IZR H)).
    pose proof (COS_bound (IZR x * (Wave.waveFrequency p * n1) / IZR W)).
    fold s in H0. fold c in H1.
    destruct IH as [[? ?] [? ?]]. repeat split; nra.
Qed.

Lemma Wave_displace_bound W H p y x :
  in_range p →
  let d := Wave.displace W H p y x in
  (-48 < d.1 < 48)%R ∧ (-48 < d.2 < 48)%R.
Proof.
  intros (Hi & _ & Hn). unfold Wave.displace.
  assert (HA : (0 <= Wave.waveAmplitude p <= 10)%R).
  { unfold Wave.waveAmplitude.
    assert (0 <= IZR (intensity p))%R by (apply IZR_le; lia).
    assert (IZR (intensity p) <= 100)%R by (apply IZR_le; lia).
    split; lra. }
  pose proof (Wave_displace_bound_nat W H p y x (Z.to_nat (iterations p)))
    as Hb.
  rewrite Z2Nat.id in Hb by lia. cbv zeta in *.
  destruct Hb as [Hb1 Hb2]; [lra |].
  set (h := Q2R (harmonic_number (Z.to_nat (iterations p)))) in *.
  assert (Hh : (0 <= h <= 475 / 100)%R).
  { unfold h. split.
    - replace 0%R with (Q2R (harmonic_number 0))
        by (unfold Q2R; simpl; lra).
      apply Qle_Rle, harmonic_number_mono. lia.
    - eapply Rle_trans.
      + apply Qle_Rle, (harmonic_number_mono _ 64). lia.
      + eapply Rle_trans; [apply Qle_Rle, harmonic_number_64 |].
        unfold Q2R. simpl. lra. }
  split; split; nra.
Qed.

Lemma fmod_nonneg a b :
  (0 <= a)%R → (0 < b)%R → (0 <= fmod a b < b)%R.
Proof.
  intros Ha Hb. unfold fmod, trunc_R.
  assert (Hq : (0 <= a / b)%R).
  { apply Rmult_le_pos; [done |]. by apply Rlt_le, Rinv_0_lt_compat. }
  destruct (Rle_dec 0 (a / b)) as [_ | Hn]; [| lra].
  pose proof (Zfloor_bound (a / b)) as [Hlo Hhi].
  assert (Hab : (a / b * b = a)%R) by (field; lra).
  split; nra.
Qed.

Lemma Wave_coordinate_inside (v n : Z) (d : R) :
  0 ≤ v < n → (- IZR n <= d)%R →
  0 ≤ Zfloor (fmod (IZR v + d + IZR n) (IZR n)) < n.
Proof.
  intros Hv Hd.
  assert (0 <= IZR v)%R by (apply IZR_le; lia).
  assert (0 < IZR n)%R by (apply IZR_lt; lia).
  destruct (fmod_nonneg (IZR v + d + IZR n) (IZR n)) as [Hlo Hhi]; [lra.. |].
  split.
  - by apply Zfloor_lub.
  - pose proof (Zfloor_bound (fmod (IZR v + d + IZR n) (IZR n))) as [Hf _].
    apply lt_IZR. lra.
Qed.

(** X11.  For in-range parameters the displacement of Wave Distortion is
    below 48 pixels in each direction (the amplitudes of the harmonics sum
    to at most 10 * (1 + 1/2 + ... + 1/64)); on an image at least 48
    pixels wide and high every sampled coordinate lies in
    [0,W) x [0,H). *)
Theorem wave_sample_inside (W H : Z) (p : EffectParams) (y x : Z) :
  in_range p →
  (-48 < (Wave.displace W H p y x).1 < 48)%R ∧
  (-48 < (Wave.displace W H p y x).2 < 48)%R ∧
  (48 ≤ W → 48 ≤ H → 0 ≤ y < H → 0 ≤ x < W →
   0 ≤ Wave.srcX W H p y x < W ∧ 0 ≤ Wave.srcY W H p y x < H).
Proof.
  intros Hp. destruct (Wave_displace_bound W H p y x Hp) as [Hd1 Hd2].
  split; [done |]. split; [done |]. intros HW HH Hy Hx.
  assert (48 <= IZR W)%R by (by apply (IZR_le 48)).
  assert (48 <= IZR H)%R by (by apply (IZR_le 48)).
  split; apply Wave_coordinate_inside; (done || lra).
Qed.

Lemma wave_sample_inside_witness :
  0 ≤ Wave.srcX 48 50 (mkParams wave 100 200 64 789) 49 0 < 48 ∧
  0 ≤ Wave.srcY 48 50 (mkParams wave 100 200 64 789) 49 0 < 50.
Proof.
  apply (wave_sample_inside 48 50 (mkParams wave 100 200 64 789) 49 0);
    try lia.
  unfold in_range. simpl. lia.
Defined.

(** * Fractal Displacement only moves pixels *)



(** * Layered-Noise Displacement: direction of the colour shift *)

Lemma roundTiesToEven_lower q : Qfloor q ≤ roundTiesToEven q.
Proof.
  unfold roundTiesToEven. destruct (_ ?= _)%Q; [| lia | lia].
  destruct (Z.even _); lia.
Qed.

Lemma roundTiesToEven_upper q v : (q <= inject_Z v)%Q → roundTiesToEven q ≤ v.
Proof.
  intros Hq. pose proof (Qfloor_resp_le _ _ Hq) as Hf. rewrite Qfloor_Z in Hf.
  unfold roundTiesToEven.
  destruct (decide (Qfloor q = v)) as [Heq | Hne].
  - assert (Hlt : (q - inject_Z (Qfloor q) ?= 1 # 2)%Q = Lt).
    { apply -> Qlt_alt. rewrite Heq. clear -Hq.
      destruct q as [n d]. unfold Qle, Qlt in *. simpl in *. lia. }
    rewrite Hlt. lia.
  - destruct (_ ?= _)%Q; [| lia | lia]. destruct (Z.even _); lia.
Qed.

Lemma toUint8Clamp_lower q v :
  (inject_Z v <= q)%Q → v ≤ 255 → v ≤ toUint8Clamp q.
Proof.
  intros Hq Hv. unfold toUint8Clamp.
  pose proof (Qfloor_resp_le _ _ Hq) as Hf. rewrite Qfloor_Z in Hf.
  pose proof (roundTiesToEven_lower q). lia.
Qed.

Lemma toUint8Clamp_upper q v :
  (q <= inject_Z v)%Q → 0 ≤ v → toUint8Clamp q ≤ v.
Proof.
  intros Hq Hv. unfold toUint8Clamp.
  pose proof (roundTiesToEven_upper q v Hq). lia.
Qed.

Lemma min255_lower (v : Z) (t : Q) :
  v ≤ 255 → (0 <= t)%Q → (inject_Z v <= Noise.min255 (inject_Z v + t))%Q.
Proof.
  intros Hv Ht. unfold Noise.min255.
  destruct (Qlt_le_dec _ _).
  - rewrite <- (Qplus_0_r (inject_Z v)) at 1. by apply Qplus_le_r.
  - change 255%Q with (inject_Z 255). by rewrite <- Zle_Qle.
Qed.

Lemma min255_upper (v : Z) (t : Q) :
  (0 <= t)%Q → (Noise.min255 (inject_Z v - t) <= inject_Z v)%Q.
Proof.
  intros Ht. unfold Noise.min255.
  assert (Hle : (inject_Z v - t <= inject_Z v)%Q).
  { rewrite <- (Qplus_0_r (inject_Z v)) at 2. unfold Qminus.
    apply Qplus_le_r. by apply (Qopp_le_compat 0). }
  destruct (Qlt_le_dec _ _) as [_ | Hge]; [done |].
  eapply Qle_trans; [exact Hge | exact Hle].
Qed.

Lemma Noise_colorShift_range W H p y x :
  1 ≤ iterations p → 0 ≤ Noise.colorShift W H p y x ≤ 255.
Proof.
  intros Hn. unfold Noise.colorShift.
  pose proof (normalized_range W H p y x Hn) as [Hlo Hhi]. split.
  - apply Zfloor_lub. lra.
  - apply Z.le_trans with (Zfloor 255); [apply Zfloor_le; lra |].
    by rewrite (Zfloor_IZR 255).
Qed.

Lemma Noise_tint_nonneg W H p y x :
  in_range p →
  (0 <= Noise.tint p (Noise.colorShift W H p y x))%Q ∧
  (0 <= Noise.tint p (Noise.colorShift W H p y x) / 2)%Q.
Proof.
  intros (Hi & _ & Hn).
  pose proof (Noise_colorShift_range W H p y x) as [Hcs _]; [lia |].
  assert (Ht : (0 <= Noise.tint p (Noise.colorShift W H p y x))%Q).
  { unfold Noise.tint. apply Qmult_le_0_compat.
    - change 0%Q with (inject_Z 0). by rewrite <- Zle_Qle.
    - apply Qle_shift_div_l; [done |]. rewrite Qmult_0_l.
      change 0%Q with (inject_Z 0). rewrite <- Zle_Qle. lia. }
  split; [done |]. apply Qle_shift_div_l; [done |]. by rewrite Qmult_0_l.
Qed.



(** * Layered-Noise Displacement: the leftmost column *)

Lemma octave_first_column W H p y o i :
  Noise.noiseValue o = 0%R →
  Noise.noiseValue (Noise.octave W H p y 0 o i) = 0%R.
Proof.
  intros Hnv. unfold Noise.octave. simpl. rewrite Hnv.
  replace (0 * Noise.frequency o * Noise.noiseScale p / IZR W * PI)%R
    with 0%R by (unfold Rdiv; ring).
  rewrite sin_0. ring.
Qed.

Lemma Noise_normalized_first_column W H p y :
  1 ≤ iterations p → Noise.normalized W H p y 0 = (1 / 2)%R.
Proof.
  intros Hn. unfold Noise.normalized.
  destruct (octaves_ok W H p y 0 Hn) as [Hm _].
  assert (Hnv : Noise.noiseValue (Noise.octaves W H p y 0) = 0%R).
  { unfold Noise.octaves.
    apply (foldl_invariant (λ o, Noise.noiseValue o = 0%R)); [done |].
    intros o i _. apply octave_first_column. }
  rewrite Hnv. field. lra.
Qed.

Lemma Zfloor_half (k : Z) : Zfloor (1 / 2 * IZR k) = k `div` 2.
Proof.
  apply Zfloor_eq.
  pose proof (Z.div_mod k 2) as Hk. pose proof (Z.mod_pos_bound k 2) as Hr.
  set (q := k `div` 2) in *. set (r := k `mod` 2) in *.
  rewrite Hk by lia. rewrite plus_IZR, mult_IZR.
  assert (r = 0 ∨ r = 1) as [-> | ->] by lia; lra.
Qed.



(** * Chromatic Displacement: the directions of the shifts *)

Lemma Chromatic_angle_fraction p i (k : Z) (t : R) :
  1 ≤ iterations p → iterations p = k * i → 0 < k →
  (IZR k * t = PI * 2)%R → Chromatic.angle p i = t.
Proof.
  intros Hn Hk Hpos Ht. unfold Chromatic.angle. rewrite Hk, mult_IZR.
  assert (0 < IZR k)%R by (by apply (IZR_lt 0)).
  assert (i ≠ 0) by nia.
  assert (IZR i ≠ 0)%R by (by apply not_0_IZR).
  apply (Rmult_eq_reg_l (IZR k)); [| lra]. rewrite Ht. field. lra.
Qed.



(** * The size of the working buffer *)

Lemma inject_Z_nonzero z : z ≠ 0 → ¬ inject_Z z == 0.
Proof. intros Hz Hq. unfold Qeq in Hq. simpl in Hq. lia. Qed.

Lemma round_landscape w h :
  0 < w → 0 < h →
  round_Q (inject_Z Loader.maxWidth / (inject_Z w / inject_Z h))
  = (1600 * h + w) `div` (2 * w).
Proof.
  intros Hw Hh. unfold round_Q. rewrite Zdiv_Qdiv. apply Qfloor_comp.
  rewrite inject_Z_plus, !inject_Z_mult. unfold Loader.maxWidth.
  field. split; apply inject_Z_nonzero; lia.
Qed.

Lemma round_portrait w h :
  0 < h →
  round_Q (inject_Z Loader.maxHeight * (inject_Z w / inject_Z h))
  = (1200 * w + h) `div` (2 * h).
Proof.
  intros Hh. unfold round_Q. rewrite Zdiv_Qdiv. apply Qfloor_comp.
  rewrite inject_Z_plus, !inject_Z_mult. unfold Loader.maxHeight.
  field. apply inject_Z_nonzero; lia.
Qed.

(** The three cases of [targetSize], in integers. *)
Lemma targetSize_cases w h :
  1 ≤ w → 1 ≤ h →
  (w ≤ 800 ∧ h ≤ 600 ∧ Loader.targetSize w h = (w, h)) ∨
  ((800 < w ∨ 600 < h) ∧ h < w ∧
   Loader.targetSize w h = (800, (1600 * h + w) `div` (2 * w))) ∨
  ((800 < w ∨ 600 < h) ∧ w ≤ h ∧
   Loader.targetSize w h = ((1200 * w + h) `div` (2 * h), 600)).
Proof.
  intros Hw Hh. unfold Loader.targetSize.
  destruct (Z.gtb_spec w Loader.maxWidth) as [Hbw | Hbw];
    destruct (Z.gtb_spec h Loader.maxHeight) as [Hbh | Hbh];
    unfold Loader.maxWidth, Loader.maxHeight in Hbw, Hbh; simpl orb;
    try (left; repeat split; (done || lia)).
  all: right; destruct (Z.gtb_spec w h) as [Hgt | Hle].
  all: try (left; split; [lia |]; split; [lia |];
            destruct (Z.eqb_spec h 0); [lia |];
            by rewrite round_landscape by lia).
  all: right; split; [lia |]; split; [lia |];
       by rewrite round_portrait by lia.
Qed.

(** X16.  For a source of at least 1 by 1 pixels the working buffer is
    never wider than 800, and never higher than 600 when the source is
    portrait or square (w <= h) or at least as wide as 4:3 (4h <= 3w). *)
Theorem targetSize_bounds (w h : Z) :
  1 ≤ w → 1 ≤ h →
  (Loader.targetSize w h).1 ≤ 800 ∧
  (w ≤ h ∨ 4 * h ≤ 3 * w → (Loader.targetSize w h).2 ≤ 600).
Proof.
  intros Hw Hh.
  destruct (targetSize_cases w h Hw Hh)
    as [(? & ? & ->) | [(? & ? & ->) | (? & ? & ->)]]; simpl.
  - split; [lia |]. intros _. lia.
  - split; [lia |]. intros [? | Hwide]; [lia |].
    assert ((1600 * h + w) `div` (2 * w) < 601); [| lia].
    apply Z.div_lt_upper_bound; lia.
  - split; [| intros _; lia].
    assert ((1200 * w + h) `div` (2 * h) < 601); [| lia].
    apply Z.div_lt_upper_bound; lia.
Qed.

Lemma targetSize_bounds_witness :
  (Loader.targetSize 4032 3024).1 ≤ 800 ∧
  (4032 ≤ 3024 ∨ 4 * 3024 ≤ 3 * 4032 → (Loader.targetSize 4032 3024).2 ≤ 600).
Proof. apply targetSize_bounds; lia. Defined.

(** X17.  When the source exceeds a bound, the side that is not pinned is
    the nearest integer to the value that keeps the aspect ratio: for a
    landscape source the new height [h'] satisfies
    [|h' - 800 h / w| <= 1/2], for a portrait or square source the new
    width [w'] satisfies [|w' - 600 w / h| <= 1/2]. *)
Theorem targetSize_keeps_aspect_ratio (w h : Z) :
  1 ≤ w → 1 ≤ h → 800 < w ∨ 600 < h →
  (h < w →
   (Loader.targetSize w h).1 = 800 ∧
   (2 * (Loader.targetSize w h).2 - 1) * w ≤ 1600 * h
   ≤ (2 * (Loader.targetSize w h).2 + 1) * w) ∧
  (w ≤ h →
   (Loader.targetSize w h).2 = 600 ∧
   (2 * (Loader.targetSize w h).1 - 1) * h ≤ 1200 * w
   ≤ (2 * (Loader.targetSize w h).1 + 1) * h).
Proof.
  intros Hw Hh Hbig.
  destruct (targetSize_cases w h Hw Hh)
    as [(? & ? & ->) | [(? & ? & ->) | (? & ? & ->)]]; simpl; [lia | |].
  - split; [| lia]. intros _. split; [done |].
    pose proof (Z.div_mod (1600 * h + w) (2 * w)).
    pose proof (Z.mod_pos_bound (1600 * h + w) (2 * w)). nia.
  - split; [lia |]. intros _. split; [done |].
    pose proof (Z.div_mod (1200 * w + h) (2 * h)).
    pose proof (Z.mod_pos_bound (1200 * w + h) (2 * h)). nia.
Qed.

Lemma targetSize_keeps_aspect_ratio_witness :
  (Loader.targetSize 1000 900).1 = 800 ∧
  (2 * (Loader.targetSize 1000 900).2 - 1) * 1000 ≤ 1600 * 900
  ≤ (2 * (Loader.targetSize 1000 900).2 + 1) * 1000.
Proof.
  apply (targetSize_keeps_aspect_ratio 1000 900); lia.
Defined.

(** X18.  On an HTML canvas the constructor throws for a source of at
    least 1 by 1 pixels exactly when the source is more than 1600 times
    as wide as high or more than 1200 times as high as wide: the pinned
    side is 800 or 600 and the other one rounds to 0.  In every other
    case it builds a buffer of the target size with no zero side. *)
Theorem constructor_fails_on_extreme_aspect (pixels : Z → Z → list Z) (w h : Z) :
  1 ≤ w → 1 ≤ h →
  (1600 * h < w ∨ 1200 * w < h →
   Loader.constructor (Loader.htmlCanvas pixels) w h
   = Loader.Thrown Loader.IndexSizeError) ∧
  (¬ (1600 * h < w ∨ 1200 * w < h) →
   ∃ w' h', Loader.targetSize w h = (w', h') ∧ 1 ≤ w' ∧ 1 ≤ h' ∧
            Loader.constructor (Loader.htmlCanvas pixels) w h
            = Loader.Built w' h' (pixels w' h')).
Proof.
  intros Hw Hh. unfold Loader.constructor, Loader.htmlCanvas.
  destruct (targetSize_cases w h Hw Hh)
    as [(? & ? & ->) | [(? & ? & ->) | (? & ? & ->)]].
  - split; [lia |]. intros _. exists w, h.
    repeat split; try lia.
    destruct (Z.eqb_spec w 0); [lia |]. destruct (Z.eqb_spec h 0); [lia | done].
  - set (h' := (1600 * h + w) `div` (2 * w)).
    assert (Hh' : 0 ≤ h') by (apply Z.div_pos; lia).
    assert (Hz : h' = 0 ↔ 1600 * h < w).
    { unfold h'. split.
      - intros Hq. apply Z.div_small_iff in Hq; lia.
      - intros Hlt. apply Z.div_small. lia. }
    split.
    + intros [Hlt | ?]; [| lia]. apply Hz in Hlt. rewrite Hlt. done.
    + intros Hno. exists 800, h'.
      assert (h' ≠ 0) by (intros Heq; apply Hz in Heq; lia).
      repeat split; try lia.
      simpl. destruct (Z.eqb_spec h' 0); [lia | done].
  - set (w' := (1200 * w + h) `div` (2 * h)).
    assert (Hw' : 0 ≤ w') by (apply Z.div_pos; lia).
    assert (Hz : w' = 0 ↔ 1200 * w < h).
    { unfold w'. split.
      - intros Hq. apply Z.div_small_iff in Hq; lia.
      - intros Hlt. apply Z.div_small. lia. }
    split.
    + intros [? | Hlt]; [lia |]. apply Hz in Hlt. rewrite Hlt. done.
    + intros Hno. exists w', 600.
      assert (w' ≠ 0) by (intros Heq; apply Hz in Heq; lia).
      repeat split; try lia.
      destruct (Z.eqb_spec w' 0); [lia | done].
Qed.

Lemma constructor_fails_on_extreme_aspect_witness :
  Loader.constructor (Loader.htmlCanvas blank) 3201 2
  = Loader.Thrown Loader.IndexSizeError.
Proof.
  apply (constructor_fails_on_extreme_aspect blank 3201 2); lia.
Defined.

(** * Presets *)

Lemma preset_in_table name p :
  Home.preset name = Some p → (name, p) ∈ Home.PRESETS.
Proof.
  unfold Home.preset. intros Hp.
  destruct (find _ _) as [[k v] |] eqn:Hf; [| done].
  injection Hp as ->. apply find_some in Hf as [Hin Hk].
  apply bool_decide_eq_true in Hk. simpl in Hk. subst k.
  by apply list_elem_of_In.
Qed.

Lemma presets_in_range name p :
  (name, p) ∈ Home.PRESETS → in_range p ∧ scale p `mod` 5 = 0.
Proof.
  unfold Home.PRESETS. intros Hin.
  repeat (apply elem_of_cons in Hin as [Heq | Hin];
          [injection Heq as _ ->;
           split; [unfold in_range; simpl; lia | reflexivity] |]).
  by apply elem_of_nil in Hin.
Qed.



(** * Loops that update each position from its own content *)

Section SelfUpdate.
Context {K : Type}.
Variables (pos : K → Z) (F : K → option Z → Z).

Lemma length_self_update (l : list K) nd :
  length (foldl (self_update pos F) nd l) = length nd.
Proof.
  apply (foldl_invariant (λ s, length s = length nd)); [done |].
  intros s k _ <-. apply length_store.
Qed.

Lemma load_self_update_other (l : list K) nd j :
  (∀ k, k ∈ l → pos k ≠ j) →
  load (foldl (self_update pos F) nd l) j = load nd j.
Proof.
  intros Hl.
  apply (foldl_invariant (λ s, load s j = load nd j)); [done |].
  intros s k Hk <-. apply load_store_ne. by apply Hl.
Qed.

Lemma load_self_update (l : list K) nd k :
  NoDup l →
  (∀ k1 k2, k1 ∈ l → k2 ∈ l → pos k1 = pos k2 → k1 = k2) →
  k ∈ l → 0 ≤ pos k < Z.of_nat (length nd) →
  load (foldl (self_update pos F) nd l) (pos k) = Some (F k (load nd (pos k))).
Proof.
  intros Hnd Hinj Hk Hr. induction l as [| k0 l IH] using rev_ind.
  { by apply elem_of_nil in Hk. }
  apply NoDup_app in Hnd as (Hnd & Hnot & _).
  rewrite foldl_snoc. unfold self_update at 1.
  apply elem_of_app in Hk as [Hk | Hk%list_elem_of_singleton].
  - rewrite load_store_ne.
    + apply IH; [done | | done].
      intros k1 k2 H1 H2. apply Hinj; apply elem_of_app; by left.
    + intros Heq. apply (Hnot k Hk).
      apply list_elem_of_singleton, Hinj; [| | done].
      * apply elem_of_app. by left.
      * apply elem_of_app. right. by apply list_elem_of_singleton.
  - subst k0. rewrite load_store_eq by (by rewrite length_self_update).
    do 2 f_equal. apply load_self_update_other.
    intros k' Hk' Heq. apply (Hnot k' Hk').
    apply list_elem_of_singleton. symmetry. apply Hinj; [| | done].
    + apply elem_of_app. right. by apply list_elem_of_singleton.
    + apply elem_of_app. by left.
Qed.

End SelfUpdate.

Lemma NoDup_zrange lo hi : NoDup (zrange lo hi).
Proof.
  unfold zrange. apply NoDup_fmap_2; [| apply NoDup_seq].
  intros a b Hab. lia.
Qed.

Lemma elem_of_pixels W H y x : (y, x) ∈ pixels W H ↔ 0 ≤ y < H ∧ 0 ≤ x < W.
Proof.
  unfold pixels. rewrite list_elem_of_bind. split.
  - intros (y' & Hin & Hy%elem_of_zrange).
    apply list_elem_of_bind in Hin as (x' & Hin & Hx%elem_of_zrange).
    apply list_elem_of_singleton in Hin. by injection Hin as -> ->.
  - intros [Hy Hx]. exists y. split; [| by apply elem_of_zrange].
    apply list_elem_of_bind. exists x.
    split; [by apply list_elem_of_singleton | by apply elem_of_zrange].
Qed.

Lemma NoDup_pixels W H : NoDup (pixels W H).
Proof.
  unfold pixels. apply NoDup_bind; [| | apply NoDup_zrange].
  - intros y1 y2 [y x] _ _ H1 H2.
    apply list_elem_of_bind in H1 as (? & H1 & _).
    apply list_elem_of_bind in H2 as (? & H2 & _).
    apply list_elem_of_singleton in H1, H2. congruence.
  - intros y _. apply NoDup_bind; [| | apply NoDup_zrange].
    + intros x1 x2 [y' x] _ _ H1 H2.
      apply list_elem_of_singleton in H1, H2. congruence.
    + intros x _. apply NoDup_singleton.
Qed.

Lemma for_yx_pixels {A} W H (body : Z → Z → A → A) s :
  for_yx 0 H 0 W body s = foldl (λ s yx, body yx.1 yx.2 s) s (pixels W H).
Proof.
  unfold for_yx, pixels. revert s.
  induction (zrange 0 H) as [| y ys IH]; intros s; [done |].
  simpl. rewrite foldl_app, <- IH. f_equal. clear.
  revert s. induction (zrange 0 W) as [| x xs IHx]; intros s; [done |].
  simpl. apply IHx.
Qed.

(** * Chromatic Displacement: what an iteration stores *)

Lemma Chromatic_pixel_self_update W H data dx dy i (yx : Z * Z) newData :
  0 ≤ i →
  Chromatic.pixel W H data dx dy i yx.1 yx.2 newData
  = self_update (Chromatic_pos W i) (Chromatic_value W H data dx dy i)
      newData yx.
Proof.
  intros Hi.
  unfold Chromatic.pixel, self_update, Chromatic_pos, Chromatic_value,
    store8, rem.
  rewrite Z.rem_mod_nonneg by lia.
  pose proof (Z.mod_pos_bound i 3).
  destruct (Z.eqb_spec (i `mod` 3) 0) as [-> | ?];
    [by rewrite !Z.add_0_r |].
  destruct (Z.eqb_spec (i `mod` 3) 1) as [-> | ?]; [done |].
  by assert (i `mod` 3 = 2) as -> by lia.
Qed.

Lemma blend_bytes a b :
  0 ≤ a ≤ 255 → 0 ≤ b ≤ 255 →
  toUint8ClampOpt (Chromatic.blend (Some a) (Some b)) = (a + b + 1) `div` 2.
Proof.
  intros Ha Hb. unfold Chromatic.blend, toUint8ClampOpt. simpl.
  assert (Hr : round_Q ((inject_Z a + inject_Z b) / 2) = (a + b + 1) `div` 2).
  { unfold round_Q. rewrite Zdiv_Qdiv. apply Qfloor_comp.
    rewrite !inject_Z_plus. field. }
  rewrite Hr. apply toUint8Clamp_byte; [done |].
  Z.div_mod_to_equations. lia.
Qed.



(** * Wave Distortion only moves pixels on images of 48 by 48 or more *)

(** X21.  For in-range parameters, on an image at least 48 pixels wide
    and high, every pixel of the output of Wave Distortion is a copy, in
    all four channels, of the input pixel at the sampled coordinate. *)
Theorem wave_output_pixel_is_source_pixel
    (W H : Z) (data : list Z) (p : EffectParams) (y x c : Z) :
  well_formed W H data → in_range p → 48 ≤ W → 48 ≤ H →
  0 ≤ y < H → 0 ≤ x < W → 0 ≤ c < 4 →
  ∃ v, load data ((Wave.srcY W H p y x * W + Wave.srcX W H p y x) * 4 + c)
       = Some v ∧
       load (Wave.applyWaveDistortion W H data p) ((y * W + x) * 4 + c)
       = Some v.
Proof.
  intros Hwf Hp HW HH Hy Hx Hc. pose proof Hwf as (_ & _ & Hlen & _).
  destruct (Wave_displace_bound W H p y x Hp) as [Hd1 Hd2].
  assert (48 <= IZR W)%R by (by apply (IZR_le 48)).
  assert (48 <= IZR H)%R by (by apply (IZR_le 48)).
  assert (Hsx : 0 ≤ Wave.srcX W H p y x < W).
  { apply Wave_coordinate_inside; [done | lra]. }
  assert (Hsy : 0 ≤ Wave.srcY W H p y x < H).
  { apply Wave_coordinate_inside; [done | lra]. }
  destruct (sample_index_in_range W H _ _ c data Hlen Hsx Hsy Hc) as [v Hv].
  exists v. split; [done |]. rewrite load_Wave by done.
  unfold Wave.srcIdx. rewrite Hv. simpl. f_equal.
  apply toUint8Clamp_byte; [done |]. by eapply well_formed_byte.
Qed.

Lemma wave_output_pixel_is_source_pixel_witness :
  let data := uniform (48 * 48) [10; 20; 30; 255] in
  let p := mkParams wave 80 40 2 789 in
  ∃ v, load data ((Wave.srcY 48 48 p 5 7 * 48 + Wave.srcX 48 48 p 5 7) * 4 + 3)
       = Some v ∧
       load (Wave.applyWaveDistortion 48 48 data p) ((5 * 48 + 7) * 4 + 3)
       = Some v.
Proof.
  intros data p.
  apply (wave_output_pixel_is_source_pixel 48 48 data p 5 7 3); try lia.
  - repeat split; (lia || by vm_compute).
  - unfold in_range. simpl. lia.
Defined.

(** * Cellular Evolution: the recoloured bytes *)

Lemma shade_dead p v :
  0 ≤ v ≤ 255 → toUint8ClampOpt (Cellular.shade p (Some 0) (Some v)) = v.
Proof.
  intros Hv. unfold Cellular.shade, toUint8ClampOpt. simpl.
  rewrite (round_Q_byte _ v) by field. by apply toUint8Clamp_byte.
Qed.

Lemma shade_alive p v :
  0 ≤ v ≤ 255 → 0 ≤ intensity p ≤ 100 →
  toUint8ClampOpt (Cellular.shade p (Some 1) (Some v))
  = (v * (100 - intensity p) + 50) `div` 100.
Proof.
  intros Hv Hi. unfold Cellular.shade, toUint8ClampOpt. simpl.
  assert (Hr : round_Q (inject_Z v * (1 - inject_Z 1 * inject_Z (intensity p) / 100))
               = (v * (100 - intensity p) + 50) `div` 100).
  { unfold round_Q. rewrite Zdiv_Qdiv. apply Qfloor_comp.
    rewrite inject_Z_plus, inject_Z_mult.
    unfold Z.sub. rewrite inject_Z_plus, inject_Z_opp. field. }
  rewrite Hr. apply toUint8Clamp_byte; [done |].
  assert (0 ≤ v * (100 - intensity p) ≤ 25500) by nia.
  Z.div_mod_to_equations. lia.
Qed.

(** X22.  For in-range intensity Cellular Evolution leaves the colour
    bytes of a pixel whose cell ends dead as they are, and replaces each
    colour byte [v] of a pixel whose cell ends alive by an integer within
    1/2 of [v * (100 - intensity) / 100]. *)
Theorem cellular_recoloured_bytes
    (W H : Z) (data : list Z) (p : EffectParams) (y x c : Z) :
  well_formed W H data → in_range p →
  0 ≤ y < H → 0 ≤ x < W → 0 ≤ c < 3 →
  let grid := Cellular.evolve W H (iterations p) (Cellular.initGrid W H data) in
  ∃ cell v v',
    load grid (y * W + x) = Some cell ∧
    load data ((y * W + x) * 4 + c) = Some v ∧
    load (Cellular.applyCellularAutomata W H data p) ((y * W + x) * 4 + c)
    = Some v' ∧
    ((cell = 0 ∧ v' = v) ∨
     (cell = 1 ∧
      v * (100 - intensity p) - 50 ≤ 100 * v' ≤ v * (100 - intensity p) + 50)).
Proof.
  intros Hwf (Hi & _ & _) Hy Hx Hc grid.
  pose proof Hwf as (HW & HH & Hlen & _).
  assert (Hglen : Z.of_nat (length grid) = W * H).
  { unfold grid. rewrite length_evolve. apply length_initGrid. nia. }
  destruct (load_total_grid grid (y * W + x)) as [cell Hcell]; [nia |].
  destruct (load_is_Some data ((y * W + x) * 4 + c)) as [v Hv]; [nia |].
  pose proof (well_formed_byte W H data _ v Hwf Hv) as Hvb.
  exists cell, v. eexists. split; [done |]. split; [done |].
  unfold Cellular.applyCellularAutomata. fold grid.
  rewrite load_recolor by nia. rewrite Hcell, Hv. split; [done |].
  assert (Hbin : cell = 0 ∨ cell = 1).
  { eapply (binary_evolve W H (iterations p)); [apply binary_initGrid |].
    exact Hcell. }
  destruct Hbin as [-> | ->]; [left | right]; split; try done.
  - by apply shade_dead.
  - rewrite shade_alive by done. Z.div_mod_to_equations. lia.
Qed.

Lemma cellular_recoloured_bytes_witness :
  let data := [255; 255; 255; 255] in
  let p := mkParams cellular 90 50 12 456 in
  let grid := Cellular.evolve 1 1 (iterations p) (Cellular.initGrid 1 1 data) in
  ∃ cell v v',
    load grid (0 * 1 + 0) = Some cell ∧
    load data ((0 * 1 + 0) * 4 + 2) = Some v ∧
    load (Cellular.applyCellularAutomata 1 1 data p) ((0 * 1 + 0) * 4 + 2)
    = Some v' ∧
    ((cell = 0 ∧ v' = v) ∨
     (cell = 1 ∧
      v * (100 - intensity p) - 50 ≤ 100 * v' ≤ v * (100 - intensity p) + 50)).
Proof.
  intros data p.
  apply (cellular_recoloured_bytes 1 1 data p 0 0 2); try lia.
  - repeat split; (lia || reflexivity).
  - unfold in_range. simpl. lia.
Defined.
